(** * RPC correlation and resilient produce of the AMQP producer module

    A shallow embedding of the producer module ([createRpcQueue],
    [maybeAnswer], [publishOrSendToQueue], [checkRpc], [produce]) together
    with the properties of its response-queue registry, its reply
    dispatcher and its retry loop.

    Modelling conventions.
    - JavaScript values are the inductive [JsVal]; objects used as maps
      ([amqpRPCQueues], its per-destination entries, the [options] object)
      are finite maps from property names to values.  Properties inherited
      from [Object.prototype] are not part of the model.
    - The module-level registry, the deferred handles created by
      [Promise.defer], the listeners added to the connection and
      [this.channel] form the explicit [State].
    - The functions of the message-parsers module are parameters:
      [parsers_out] is a function of the payload and of the options it is
      handed, as the specification describes the codec (a pure transform);
      what a codec may write into the options object is outside the model.
    - The broker, the connection manager and [uuid.v4] are the environment:
      each attempt of [produce] reads the outcomes of its external calls
      from an [AttemptEnv].  Everything the module does to the outside
      world, and every write to the registry, is recorded as an [Event];
      [EYield] marks the points at which a promise hands control back to
      the event loop. *)

From Stdlib Require Import ZArith List.
From stdpp Require Import base option list gmap strings.

Open Scope Z_scope.
Set Warnings "-register-all".

(** ** JavaScript values *)

Definition Bytes := list Byte.byte.

Inductive JsVal : Type :=
| JUndefined
| JNull
| JBool (b : bool)
| JNum (z : Z)
| JNaN
| JStr (s : string)
| JObj (fields : list (string * JsVal))
| JDeferred (d : nat).

(** ToBoolean. *)
Definition truthy (v : JsVal) : bool :=
  match v with
  | JUndefined | JNull | JNaN => false
  | JBool b => b
  | JNum z => negb (z =? 0)
  | JStr s => negb (String.eqb s EmptyString)
  | JObj _ | JDeferred _ => true
  end.

(** An object used as a map from property names to values. *)
Abbreviation JsObject := (gmap string JsVal).

(** Property read [o.k] / [o[k]]: an absent property reads [undefined]. *)
Definition prop (o : JsObject) (k : string) : JsVal := default JUndefined (o !! k).

(** Property key of a possibly missing string: [o[undefined]] reads the
    property named "undefined". *)
Definition prop_key (k : option string) : string := default "undefined"%string k.

(** ** Errors and results *)

Inductive JsError : Type :=
| TypeError
| Rejection (reason : string).

Inductive Result (A : Type) : Type :=
| Ok (a : A)
| Err (e : JsError).
Arguments Ok {A} a.
Arguments Err {A} e.

(** ** Deferred handles *)

Inductive DState : Type :=
| Pending
| Fulfilled (v : JsVal).

(** [deferred.resolve(v)]: only a pending promise changes state. *)
Definition resolve (d : nat) (v : JsVal) (ds : list DState) : list DState :=
  match ds !! d with
  | Some Pending => <[d := Fulfilled v]> ds
  | _ => ds
  end.

(** ** Incoming messages *)

Record Properties := mkProperties { correlationId : option string }.
Record Message := mkMessage { properties : Properties; content : Bytes }.

(** ** Module state *)

Record State := mkState {
  amqpRPCQueues : gmap string JsObject;
  deferreds : list DState;
  listeners : list string;
  channel : option nat
}.

Definition initial : State := mkState ∅ [] [] None.

Definition set_registry (r : gmap string JsObject) (st : State) : State :=
  mkState r (deferreds st) (listeners st) (channel st).
Definition set_deferreds (ds : list DState) (st : State) : State :=
  mkState (amqpRPCQueues st) ds (listeners st) (channel st).
Definition add_listener (q : string) (st : State) : State :=
  mkState (amqpRPCQueues st) (deferreds st) (listeners st ++ [q]) (channel st).
Definition set_channel (c : nat) (st : State) : State :=
  mkState (amqpRPCQueues st) (deferreds st) (listeners st) (Some c).

(** ** Environment and events *)

Record AttemptEnv := mkEnv {
  env_get : Result nat;            (* conn.get() *)
  env_assertQueue : Result string; (* channel.assertQueue: the [queue] of the reply *)
  env_consume : Result unit;       (* channel.consume *)
  env_send : Result bool;          (* channel.sendToQueue / channel.publish *)
  env_uuid : string                (* uuid.v4() *)
}.

Inductive Event : Type :=
| EGet
| EYield
| ELogOut (queue : string) (payload : JsVal)
| ELogIn (queue : string) (payload : JsVal)
| ELogError (err : JsError)
| EWait (ms : Z)
| EAssertQueue (name : string) (durable exclusive : bool)
| ECacheName (queue : string) (name : string)
| EAddListener (event : string) (queue : string)
| EConsume (name : string) (queue : string) (noAck : bool)
| ESendToQueue (queue : string) (body : Bytes) (options : JsObject)
| EPublish (exchange : string) (routingKey : JsVal) (body : Bytes) (options : JsObject)
| ERegister (queue : string) (corrId : string) (d : nat)
| EResolve (d : nat) (v : JsVal)
| EUnregister (queue : string) (corrId : string).

(** What the promise returned by [checkRpc] stands for. *)
Inductive Reply : Type :=
| Sent (ack : bool)
| Awaiting (d : nat).

(** State of the promise returned by [produce]. *)
Inductive PromiseState : Type :=
| PSent (ack : bool)
| PAwaiting (d : nat)
| PRejected (e : JsError)
| PPending.

Definition promise_of (r : Reply) : PromiseState :=
  match r with
  | Sent ack => PSent ack
  | Awaiting d => PAwaiting d
  end.

Section Producer.

(** [this.conn.config.hostname], [this.conn.config.timeout] and the two
    functions of the message-parsers module. *)
Variable hostname : string.
Variable timeout : Z.
Variable parsers_out : JsVal -> JsObject -> Bytes.
Variable parsers_in : Message -> JsVal.

(** ** createRpcQueue *)

Definition resQueue (queue : string) : string :=
  queue +:+ ":" +:+ hostname +:+ ":res".

Definition createRpcQueue (env : AttemptEnv) (queue : string) (st : State)
  : Result JsVal * State * list Event :=
  match amqpRPCQueues st !! queue with
  | None => (Err TypeError, st, [])
  | Some entry =>
    if truthy (prop entry "queue") then (Ok JUndefined, st, [EYield])
    else
      match env_assertQueue env with
      | Err e => (Err e, st, [EAssertQueue (resQueue queue) true true; EYield])
      | Ok name =>
        let st1 :=
          add_listener queue
            (set_registry (<[queue := <["queue" := JStr name]> entry]> (amqpRPCQueues st)) st) in
        let tr := [EAssertQueue (resQueue queue) true true; EYield;
                   ECacheName queue name; EAddListener "close" queue;
                   EConsume name queue true; EYield] in
        match env_consume env with
        | Err e => (Err e, st1, tr)
        | Ok _ => (Ok (JStr queue), st1, tr ++ [EYield])
        end
      end
  end.

(** The listener added by [createRpcQueue] and the emission of the
    connection's close event.  [addListener] listeners stay registered. *)
Definition on_close (queue : string) (st : State) : Result unit * State :=
  match amqpRPCQueues st !! queue with
  | None => (Err TypeError, st)
  | Some entry =>
    (Ok tt, set_registry (<[queue := <["queue" := JNull]> entry]> (amqpRPCQueues st)) st)
  end.

Fixpoint emit_to (ls : list string) (st : State) : Result unit * State :=
  match ls with
  | [] => (Ok tt, st)
  | q :: rest =>
    match on_close q st with
    | (Ok _, st') => emit_to rest st'
    | (Err e, st') => (Err e, st')
    end
  end.

Definition emit_close (st : State) : Result unit * State :=
  emit_to (listeners st) st.

(** ** maybeAnswer *)

Definition maybeAnswer (queue : string) (_msg : Message) (st : State)
  : Result unit * State * list Event :=
  let corrIdA := prop_key (correlationId (properties _msg)) in
  match amqpRPCQueues st !! queue with
  | None => (Err TypeError, st, [])
  | Some entry =>
    match entry !! corrIdA with
    | None | Some JUndefined => (Ok tt, st, [])
    | Some (JDeferred d) =>
      let v := parsers_in _msg in
      (Ok tt,
       set_registry (<[queue := delete corrIdA entry]> (amqpRPCQueues st))
         (set_deferreds (resolve d v (deferreds st)) st),
       [EResolve d v; ELogIn queue v; EUnregister queue corrIdA])
    | Some _ => (Err TypeError, st, [])
    end
  end.

(** ** publishOrSendToQueue *)

Definition publishOrSendToQueue (env : AttemptEnv) (queue : string) (msg : Bytes)
  (options : JsObject) : Result bool * list Event :=
  if negb (truthy (prop options "routingKey")) then
    (env_send env, [ESendToQueue queue msg options])
  else
    (env_send env, [EPublish queue (prop options "routingKey") msg options]).

(** ** checkRpc *)

Definition ensure_entry (queue : string) (st : State) : State :=
  match amqpRPCQueues st !! queue with
  | None => set_registry (<[queue := ∅]> (amqpRPCQueues st)) st
  | Some _ => st
  end.

Definition register (queue corrId : string) (st : State) : nat * State :=
  let d := length (deferreds st) in
  (d,
   set_registry
     (<[queue := <[corrId := JDeferred d]> (default ∅ (amqpRPCQueues st !! queue))]>
        (amqpRPCQueues st))
     (set_deferreds (deferreds st ++ [Pending]) st)).

Definition checkRpc (env : AttemptEnv) (queue : string) (msg : Bytes)
  (options : JsObject) (st : State)
  : Result Reply * JsObject * State * list Event :=
  let options1 := <["persistent" := JBool true]> options in
  if truthy (prop options1 "rpc") then
    let st1 := ensure_entry queue st in
    match createRpcQueue env queue st1 with
    | (Err e, st2, tr) => (Err e, options1, st2, tr)
    | (Ok _, st2, tr) =>
      let corrId := env_uuid env in
      let options2 := <["correlationId" := JStr corrId]> options1 in
      let options3 :=
        <["replyTo" := prop (default ∅ (amqpRPCQueues st2 !! queue)) "queue"]> options2 in
      match publishOrSendToQueue env queue msg options3 with
      | (Err e, tr2) => (Err e, options3, st2, tr ++ tr2)
      | (Ok _, tr2) =>
        let '(d, st3) := register queue corrId st2 in
        (Ok (Awaiting d), options3, st3, tr ++ tr2 ++ [ERegister queue corrId d])
      end
    end
  else
    match publishOrSendToQueue env queue msg options1 with
    | (Err e, tr) => (Err e, options1, st, tr)
    | (Ok ack, tr) => (Ok (Sent ack), options1, st, tr)
    end.

(** ** produce *)

Definition normalize (msg : JsVal) : JsVal := if truthy msg then msg else JNull.

Definition default_options : JsObject :=
  <["persistent" := JBool true]> (<["durable" := JBool true]> ∅).

(** One pass through the [then] callback of [produce].  Besides the result
    it returns the values of the variables [msg] and [options] that the
    [catch] callback will read. *)
Definition attempt (env : AttemptEnv) (queue : string) (msg : JsVal)
  (options : option JsObject) (st : State)
  : Result Reply * JsVal * option JsObject * State * list Event :=
  match env_get env with
  | Err e => (Err e, msg, options, st, [EGet; EYield])
  | Ok _channel =>
    let st0 := set_channel _channel st in
    let msg' := normalize msg in
    let options' := default default_options options in
    let '(r, options'', st', tr) :=
      checkRpc env queue (parsers_out msg' options') options' st0 in
    (r, msg', Some options'', st', [EGet; EYield; ELogOut queue msg'] ++ tr)
  end.

(** [produce] against a script of environments, one per attempt.  When the
    script is exhausted the pending [conn.get()] has not been answered and
    the promise is still pending. *)
Fixpoint produce (script : list AttemptEnv) (queue : string) (msg : JsVal)
  (options : option JsObject) (st : State)
  : PromiseState * State * list Event :=
  match script with
  | [] => (PPending, st, [EGet])
  | env :: rest =>
    match attempt env queue msg options st with
    | (Ok r, _, _, st', tr) => (promise_of r, st', tr)
    | (Err err, msg', options', st', tr) =>
      let '(p, st'', tr') := produce rest queue msg' options' st' in
      (p, st'', tr ++ [ELogError err; EWait timeout; EYield] ++ tr')
    end
  end.

End Producer.

(** ** Observations on traces *)

Definition is_send (e : Event) : bool :=
  match e with
  | ESendToQueue _ _ _ | EPublish _ _ _ _ => true
  | _ => false
  end.

Definition is_register (e : Event) : bool :=
  match e with ERegister _ _ _ => true | _ => false end.

Definition is_declare (e : Event) : bool :=
  match e with EAssertQueue _ _ _ => true | _ => false end.

Definition is_log_error (e : Event) : bool :=
  match e with ELogError _ => true | _ => false end.

(** The message body and the options handed to the channel by a send. *)
Definition send_body (e : Event) : option Bytes :=
  match e with
  | ESendToQueue _ b _ | EPublish _ _ b _ => Some b
  | _ => None
  end.

Definition send_options (e : Event) : option JsObject :=
  match e with
  | ESendToQueue _ _ o | EPublish _ _ _ o => Some o
  | _ => None
  end.

(** The payload logged by [produce] just before it encodes and sends. *)
Definition logged_payload (e : Event) : option JsVal :=
  match e with ELogOut _ p => Some p | _ => None end.

Definition wait_of (e : Event) : option Z :=
  match e with EWait ms => Some ms | _ => None end.

Definition bodies (tr : list Event) : list Bytes := omap send_body tr.
Definition payloads (tr : list Event) : list JsVal := omap logged_payload tr.
Definition waits (tr : list Event) : list Z := omap wait_of tr.
Definition declarations (tr : list Event) : nat := length (List.filter is_declare tr).
Definition error_logs (tr : list Event) : nat := length (List.filter is_log_error tr).

(** The reading of "the handle is inserted before the send": every
    registration event of the trace comes before every send event. *)
Definition registers_before_sends (tr : list Event) : Prop :=
  ∀ i j e1 e2,
    tr !! i = Some e1 → is_register e1 = true →
    tr !! j = Some e2 → is_send e2 = true →
    (i < j)%nat.

(** The state invariant behind the close listeners: every listener has its
    entry, and every destination whose entry holds a response queue has a
    listener. *)
Definition listeners_have_entries (st : State) : Prop :=
  ∀ q, q ∈ listeners st → is_Some (amqpRPCQueues st !! q).

Definition cached_are_listened (st : State) : Prop :=
  ∀ q entry, amqpRPCQueues st !! q = Some entry →
    truthy (prop entry "queue") = true → q ∈ listeners st.

Definition wf (st : State) : Prop :=
  listeners_have_entries st ∧ cached_are_listened st.

(** ** Scripts of failing attempts *)

Section Scripts.

Variable hostname : string.
Variable parsers_out : JsVal -> JsObject -> Bytes.

(** Runs the attempts of a script one after the other as long as each of
    them fails; gives the trace and the error of each attempt, and the
    [msg], [options] and state the following attempt starts from. *)
Fixpoint run_failures (script : list AttemptEnv) (queue : string) (msg : JsVal)
  (options : option JsObject) (st : State)
  : option (list (list Event * JsError) * JsVal * option JsObject * State) :=
  match script with
  | [] => Some ([], msg, options, st)
  | env :: rest =>
    match attempt hostname parsers_out env queue msg options st with
    | (Err e, msg', options', st', tr) =>
      match run_failures rest queue msg' options' st' with
      | Some (log, m, o, s) => Some ((tr, e) :: log, m, o, s)
      | None => None
      end
    | (Ok _, _, _, _, _) => None
    end
  end.

End Scripts.

(** What the [catch] callback adds after each failed attempt. *)
Fixpoint retry_trace (timeout : Z) (log : list (list Event * JsError)) : list Event :=
  match log with
  | [] => []
  | (tr, e) :: log' => tr ++ [ELogError e; EWait timeout; EYield] ++ retry_trace timeout log'
  end.

(** ** A concrete producer *)

Module Sample.

Definition hostname : string := "gateway-http".
Definition timeout : Z := 1000.

(** A codec in the style of the parsers module: strings are sent as their
    bytes, everything else as the bytes of "null". *)
Definition parsers_out (v : JsVal) (_ : JsObject) : Bytes :=
  match v with
  | JStr s => String.list_byte_of_string s
  | _ => String.list_byte_of_string "null"
  end.

Definition parsers_in (m : Message) : JsVal :=
  JStr (String.string_of_list_byte (content m)).

Definition env_ok : AttemptEnv :=
  mkEnv (Ok 1%nat) (Ok "service-oauth:gateway-http:res"%string) (Ok tt) (Ok true)
        "110ec58a-a0f2-4ac4-8393-c866d813b8d1".

Definition env_down : AttemptEnv :=
  mkEnv (Err (Rejection "channel closed")) (Err (Rejection "channel closed"))
        (Err (Rejection "channel closed")) (Err (Rejection "channel closed"))
        "6fa459ea-ee8a-4ca4-894e-db77e160355e".


Definition rpc_options : JsObject := <["rpc" := JBool true]> ∅.
Definition transient_options : JsObject := <["persistent" := JBool false]> ∅.

Definition reply (corrId : string) (body : string) : Message :=
  mkMessage (mkProperties (Some corrId)) (String.list_byte_of_string body).

(** The registry entry of a destination whose response queue is ready. *)
Definition ready : State :=
  mkState
    (<["service-oauth" := <["queue" := JStr "service-oauth:gateway-http:res"]> ∅]> ∅)
    [] ["service-oauth"%string] (Some 1%nat).

(** The state after one RPC produce to "service-oauth" from [initial]. *)
Definition after_rpc : State :=
  snd (fst (produce hostname timeout parsers_out [env_ok] "service-oauth"
              (JStr "ping") (Some rpc_options) initial)).

Definition rpc_trace : list Event :=
  snd (produce hostname timeout parsers_out [env_ok] "service-oauth"
         (JStr "ping") (Some rpc_options) initial).

End Sample.

(** Further values of the concrete producer, used to instantiate the
    properties below. *)
Module SampleRuns.

Definition uuid : string := env_uuid Sample.env_ok.

(** The entry of "service-oauth" after the RPC produce. *)
Definition pending_entry : JsObject :=
  default ∅ (amqpRPCQueues Sample.after_rpc !! "service-oauth").

Definition pong : Message := Sample.reply uuid "pong".

(** The state after the close event has fired on [Sample.after_rpc]. *)
Definition after_close : State := snd (emit_close Sample.after_rpc).





(** The first attempt of an RPC produce to "service-oauth". *)
Definition rpc_attempt :=
  attempt Sample.hostname Sample.parsers_out Sample.env_ok "service-oauth"
    (JStr "ping") (Some Sample.rpc_options) initial.

Definition rpc_check :=
  checkRpc Sample.hostname Sample.env_ok "service-oauth" [] Sample.rpc_options initial.

End SampleRuns.

(** ** Histories of the module *)

Definition is_consume (e : Event) : bool :=
  match e with EConsume _ _ _ => true | _ => false end.



(** The three ways the state changes: a call of [produce] run against a
    script, a message delivered to the consumer callback of a destination,
    and the close event of the connection. *)
Inductive Op : Type :=
| OpProduce (script : list AttemptEnv) (queue : string) (msg : JsVal)
    (options : option JsObject)
| OpReply (queue : string) (m : Message)
| OpClose.

Section Histories.

Variable hostname : string.
Variable timeout : Z.
Variable parsers_out : JsVal -> JsObject -> Bytes.
Variable parsers_in : Message -> JsVal.

Definition step (op : Op) (st : State) : State :=
  match op with
  | OpProduce script queue msg options =>
    snd (fst (produce hostname timeout parsers_out script queue msg options st))
  | OpReply queue m => snd (fst (maybeAnswer parsers_in queue m st))
  | OpClose => snd (emit_close st)
  end.

Fixpoint run (ops : list Op) (st : State) : State :=
  match ops with
  | [] => st
  | op :: rest => run rest (step op st)
  end.

End Histories.


(** Number of handles registered in a trace. *)
Definition registrations (tr : list Event) : nat := length (List.filter is_register tr).

(** ** More runs of the concrete producer *)

Module SampleMore.

Definition env_consume_fails : AttemptEnv :=
  mkEnv (Ok 1%nat) (Ok "service-oauth:gateway-http:res"%string)
        (Err (Rejection "channel closed")) (Ok true)
        "6fa459ea-ee8a-4ca4-894e-db77e160355e".

Definition env_declare_fails : AttemptEnv :=
  mkEnv (Ok 1%nat) (Err (Rejection "resource locked")) (Ok tt) (Ok true)
        "6fa459ea-ee8a-4ca4-894e-db77e160355e".

Definition env_ok2 : AttemptEnv :=
  mkEnv (Ok 1%nat) (Ok "service-oauth:gateway-http:res"%string) (Ok tt) (Ok true)
        "7d444840-9dc0-41d1-a716-446655440000".

Definition uuid2 : string := env_uuid env_ok2.

Definition routed_options : JsObject :=
  <["routingKey" := JStr "user.created"]> (<["durable" := JBool false]> ∅).

(** A plain produce to an exchange. *)
Definition routed_attempt :=
  attempt Sample.hostname Sample.parsers_out Sample.env_ok "events"
    (JStr "hello world!") (Some routed_options) initial.

Definition routed_send : Event := nth 3 (snd routed_attempt) EGet.

(** checkRpc on the options of that produce. *)
Definition routed_check :=
  checkRpc Sample.hostname Sample.env_ok "events"
    (Sample.parsers_out (JStr "hello world!") routed_options) routed_options initial.

Definition routed_check_send : Event := nth 0 (snd routed_check) EGet.

(** A second RPC produce to "service-oauth", after [Sample.after_rpc]. *)
Definition second_rpc_attempt :=
  attempt Sample.hostname Sample.parsers_out env_ok2 "service-oauth"
    (JStr "ping") (Some Sample.rpc_options) Sample.after_rpc.

Definition after_two_rpc : State := snd (fst second_rpc_attempt).

Definition two_pending : JsObject :=
  default ∅ (amqpRPCQueues after_two_rpc !! "service-oauth").

Definition pang : Message := Sample.reply uuid2 "pang".

(** A first RPC produce to "service-oauth" whose declaration is answered,
    whose consume call is rejected, and whose second attempt goes through. *)
Definition consume_rejected_run :=
  produce Sample.hostname Sample.timeout Sample.parsers_out
    [env_consume_fails; Sample.env_ok] "service-oauth" (JStr "ping")
    (Some Sample.rpc_options) initial.


End SampleMore.

(** ** Tactics *)

(** Finds the send event among the members of an explicit trace. *)
Ltac find_send Hin :=
  cbn in Hin;
  repeat (apply elem_of_cons in Hin as [->|Hin]; [try discriminate|]);
  try (by apply elem_of_nil in Hin).

(** Closes an equation between closed terms by evaluating both sides. *)
Ltac by_computation := vm_compute; reflexivity.

(** * Properties *)

Section Properties.

Variable hostname : string.
Variable timeout : Z.
Variable parsers_out : JsVal -> JsObject -> Bytes.
Variable parsers_in : Message -> JsVal.

(** ** Payload normalisation *)

Lemma normalize_idem (msg : JsVal) : normalize (normalize msg) = normalize msg.
Proof. unfold normalize. destruct (truthy msg) eqn:E; [by rewrite E | done]. Qed.

Lemma normalize_falsy (msg : JsVal) : truthy msg = false → normalize msg = JNull.
Proof. unfold normalize. by intros ->. Qed.

Lemma produce_normalize (script : list AttemptEnv) (queue : string) (msg : JsVal)
  (options : option JsObject) (st : State) :
  produce hostname timeout parsers_out script queue (normalize msg) options st =
  produce hostname timeout parsers_out script queue msg options st.
Proof.
  revert msg options st.
  induction script as [|env rest IH]; intros msg options st; [done|].
  cbn [produce]. unfold attempt.
  destruct (env_get env) as [c|e].
  - rewrite normalize_idem. done.
  - by rewrite IH.
Qed.

(** ** Reply dispatch *)

Lemma resolve_pending (d : nat) (v : JsVal) (ds : list DState) :
  ds !! d = Some Pending → resolve d v ds !! d = Some (Fulfilled v).
Proof.
  intros H. unfold resolve. rewrite H.
  apply list_lookup_insert_eq. by eapply lookup_lt_Some.
Qed.

Lemma resolve_other (d d' : nat) (v : JsVal) (ds : list DState) :
  d' ≠ d → resolve d v ds !! d' = ds !! d'.
Proof.
  intros H. unfold resolve.
  destruct (ds !! d) as [[|]|]; try done. by apply list_lookup_insert_ne.
Qed.

(** A reply whose correlation id names no property of the entry is
    dropped without any effect. *)
Lemma maybeAnswer_unknown (queue : string) (m : Message) (st : State) (entry : JsObject) :
  amqpRPCQueues st !! queue = Some entry →
  entry !! prop_key (correlationId (properties m)) = None →
  maybeAnswer parsers_in queue m st = (Ok tt, st, []).
Proof. intros H1 H2. unfold maybeAnswer. by rewrite H1, H2. Qed.

(** C3: a reply whose correlation id has a pending entry fulfils the
    promise of exactly that handle with the decoded payload, leaves every
    other handle and every other entry as it was, removes the entry, and a
    second delivery of the same reply finds nothing and does nothing. *)
Theorem maybeAnswer_delivers_once (queue : string) (m : Message) (st : State)
  (entry : JsObject) (d : nat) :
  amqpRPCQueues st !! queue = Some entry →
  entry !! prop_key (correlationId (properties m)) = Some (JDeferred d) →
  deferreds st !! d = Some Pending →
  ∃ st',
    maybeAnswer parsers_in queue m st =
      (Ok tt, st',
       [EResolve d (parsers_in m); ELogIn queue (parsers_in m);
        EUnregister queue (prop_key (correlationId (properties m)))]) ∧
    deferreds st' !! d = Some (Fulfilled (parsers_in m)) ∧
    (∀ d', d' ≠ d → deferreds st' !! d' = deferreds st !! d') ∧
    amqpRPCQueues st' !! queue =
      Some (delete (prop_key (correlationId (properties m))) entry) ∧
    (∀ q, q ≠ queue → amqpRPCQueues st' !! q = amqpRPCQueues st !! q) ∧
    maybeAnswer parsers_in queue m st' = (Ok tt, st', []).
Proof.
  intros He Hc Hd. eexists. split.
  { unfold maybeAnswer. rewrite He, Hc. reflexivity. }
  cbn. repeat split.
  - by apply resolve_pending.
  - intros d' Hne. by apply resolve_other.
  - by rewrite lookup_insert_eq.
  - intros q Hne. by rewrite lookup_insert_ne.
  - unfold maybeAnswer. cbn. rewrite lookup_insert_eq, lookup_delete_eq. done.
Qed.

(** ** The response queue of a destination *)

Lemma createRpcQueue_cached (env : AttemptEnv) (queue : string) (st : State)
  (entry : JsObject) :
  amqpRPCQueues st !! queue = Some entry →
  truthy (prop entry "queue") = true →
  createRpcQueue hostname env queue st = (Ok JUndefined, st, [EYield]).
Proof. intros H1 H2. unfold createRpcQueue. by rewrite H1, H2. Qed.


Lemma truthy_name (name : string) : name ≠ EmptyString → truthy (JStr name) = true.
Proof. intros H. cbn. by destruct name. Qed.

(** C2, as the code has it: when the entry already holds a response-queue
    name the call resolves at once, with no value, declares nothing and
    leaves the state as it is; and after a call whose declaration was
    answered with a non-empty queue name, a second call with no close event
    in between resolves in that way, so that the two calls declare the
    queue exactly once. *)
Theorem createRpcQueue_declares_once (env1 env2 : AttemptEnv) (queue : string)
  (st : State) (entry : JsObject) :
  amqpRPCQueues st !! queue = Some entry →
  (truthy (prop entry "queue") = true →
     createRpcQueue hostname env1 queue st = (Ok JUndefined, st, [EYield])) ∧
  (truthy (prop entry "queue") = false →
     ∀ name, env_assertQueue env1 = Ok name → name ≠ EmptyString →
       ∃ r1 st1 tr1,
         createRpcQueue hostname env1 queue st = (r1, st1, tr1) ∧
         createRpcQueue hostname env2 queue st1 = (Ok JUndefined, st1, [EYield]) ∧
         declarations (tr1 ++ [EYield]) = 1%nat).
Proof.
  intros He. split.
  - by apply createRpcQueue_cached.
  - intros Hf name Ha Hn.
    assert (Hc : ∀ s, createRpcQueue hostname env2 queue
        (add_listener queue
          (set_registry (<[queue := <["queue" := JStr name]> entry]> (amqpRPCQueues st)) s))
        = (Ok JUndefined,
           add_listener queue
             (set_registry (<[queue := <["queue" := JStr name]> entry]> (amqpRPCQueues st)) s),
           [EYield])).
    { intros s. eapply createRpcQueue_cached.
      - cbn. apply lookup_insert_eq.
      - unfold prop. rewrite lookup_insert_eq. by apply truthy_name. }
    unfold createRpcQueue at 1. rewrite He, Hf, Ha.
    destruct (env_consume env1); do 3 eexists; (split; [reflexivity|]);
      (split; [apply Hc | done]).
Qed.

(** ** The close listeners *)

Lemma wf_initial : wf initial.
Proof.
  split.
  - intros q Hq. cbn in Hq. by apply elem_of_nil in Hq.
  - intros q entry Hq. cbn in Hq. by rewrite lookup_empty in Hq.
Qed.

Lemma prop_insert_ne (o : JsObject) (k k' : string) (v : JsVal) :
  k ≠ k' → prop (<[k := v]> o) k' = prop o k'.
Proof. intros H. unfold prop. by rewrite lookup_insert_ne. Qed.

Lemma prop_insert_eq (o : JsObject) (k : string) (v : JsVal) :
  prop (<[k := v]> o) k = v.
Proof. unfold prop. by rewrite lookup_insert_eq. Qed.

Lemma emit_to_spec (ls : list string) (st : State) :
  (∀ q, q ∈ ls → is_Some (amqpRPCQueues st !! q)) →
  ∃ st',
    emit_to ls st = (Ok tt, st') ∧
    listeners st' = listeners st ∧
    deferreds st' = deferreds st ∧
    ∀ q, amqpRPCQueues st' !! q =
         if decide (q ∈ ls) then <["queue" := JNull]> <$> (amqpRPCQueues st !! q)
         else amqpRPCQueues st !! q.
Proof.
  revert st. induction ls as [|q0 rest IH]; intros st Hall.
  - exists st. repeat split.
  - destruct (Hall q0) as [e0 He0]; [by left|].
    cbn [emit_to]. unfold on_close. rewrite He0.
    set (st1 := set_registry _ st).
    destruct (IH st1) as (st' & Hrun & Hl & Hd & Hreg).
    { intros q Hq. subst st1. cbn.
      destruct (decide (q0 = q)) as [->|Hne].
      - rewrite lookup_insert_eq. eauto.
      - rewrite lookup_insert_ne by done. apply Hall. by right. }
    exists st'. repeat split; try done.
    intros q. rewrite Hreg. subst st1. cbn.
    destruct (decide (q0 = q)) as [->|Hne].
    + rewrite lookup_insert_eq, He0.
      rewrite (decide_True (P := q ∈ q :: rest)) by by left.
      case_decide; cbn; [by rewrite insert_insert_eq | done].
    + rewrite lookup_insert_ne by done.
      destruct (decide (q ∈ rest)) as [Hin|Hnin].
      * rewrite decide_True; [done | by right].
      * rewrite decide_False; [done|].
        intros [?|?]%elem_of_cons; congruence.
Qed.


(** ** The invariant holds in every state the module reaches *)

Lemma wf_update (st st' : State) (q : string) (entry : JsObject) :
  listeners st' = listeners st →
  amqpRPCQueues st' = <[q := entry]> (amqpRPCQueues st) →
  (truthy (prop entry "queue") = true → q ∈ listeners st) →
  wf st → wf st'.
Proof.
  intros Hl Hr Hq [Hle Hcl]. split.
  - intros q' Hin. rewrite Hr. rewrite Hl in Hin.
    destruct (decide (q = q')) as [->|Hne].
    + rewrite lookup_insert_eq. eauto.
    + rewrite lookup_insert_ne by done. by apply Hle.
  - intros q' e He Ht. rewrite Hr in He. rewrite Hl.
    destruct (decide (q = q')) as [->|Hne].
    + rewrite lookup_insert_eq in He. simplify_eq. by apply Hq.
    + rewrite lookup_insert_ne in He by done. by eapply Hcl.
Qed.

Lemma wf_cache (st st' : State) (q : string) (entry : JsObject) :
  listeners st' = listeners st ++ [q] →
  amqpRPCQueues st' = <[q := entry]> (amqpRPCQueues st) →
  wf st → wf st'.
Proof.
  intros Hl Hr [Hle Hcl]. split.
  - intros q' Hin. rewrite Hr. rewrite Hl in Hin.
    destruct (decide (q = q')) as [->|Hne].
    + rewrite lookup_insert_eq. eauto.
    + rewrite lookup_insert_ne by done. apply Hle.
      apply elem_of_app in Hin as [Hin|Hin]; [done|].
      apply list_elem_of_singleton in Hin. congruence.
  - intros q' e He Ht. rewrite Hr in He. rewrite Hl. apply elem_of_app.
    destruct (decide (q = q')) as [->|Hne].
    + right. by apply list_elem_of_singleton.
    + rewrite lookup_insert_ne in He by done. left. by eapply Hcl.
Qed.

Lemma wf_same (st st' : State) :
  listeners st' = listeners st →
  amqpRPCQueues st' = amqpRPCQueues st →
  wf st → wf st'.
Proof.
  intros Hl Hr [Hle Hcl]. split.
  - intros q. rewrite Hl, Hr. apply Hle.
  - intros q e. rewrite Hl, Hr. apply Hcl.
Qed.

Lemma ensure_entry_wf (queue : string) (st : State) : wf st → wf (ensure_entry queue st).
Proof.
  intros Hwf. unfold ensure_entry.
  destruct (amqpRPCQueues st !! queue) eqn:He; [done|].
  eapply wf_update; [| |intros Ht|exact Hwf]; [done..|].
  by cbn in Ht.
Qed.

Lemma createRpcQueue_wf (env : AttemptEnv) (queue : string) (st st' : State)
  (r : Result JsVal) (tr : list Event) :
  wf st →
  createRpcQueue hostname env queue st = (r, st', tr) →
  wf st' ∧ (∀ v, r = Ok v → queue ∈ listeners st').
Proof.
  intros Hwf. unfold createRpcQueue.
  destruct (amqpRPCQueues st !! queue) as [entry|] eqn:He; [|by intros [= <- <- <-]].
  destruct (truthy (prop entry "queue")) eqn:Ht.
  { intros [= <- <- <-]. split; [done|]. intros _ _. by eapply (proj2 Hwf). }
  destruct (env_assertQueue env) as [name|e]; [|by intros [= <- <- <-]].
  assert (Hwf1 : wf (add_listener queue
    (set_registry (<[queue := <["queue" := JStr name]> entry]> (amqpRPCQueues st)) st))).
  { eapply wf_cache; [| |exact Hwf]; done. }
  destruct (env_consume env); intros [= <- <- <-]; (split; [done|]);
    intros _ _; cbn; apply elem_of_app; right; by apply list_elem_of_singleton.
Qed.

Lemma checkRpc_wf (env : AttemptEnv) (queue : string) (body : Bytes)
  (options options' : JsObject) (st st' : State) (r : Result Reply) (tr : list Event) :
  wf st →
  checkRpc hostname env queue body options st = (r, options', st', tr) →
  wf st'.
Proof.
  intros Hwf. unfold checkRpc. cbv zeta.
  destruct (truthy _).
  - destruct (createRpcQueue _ _ _ _) as [[r1 st2] tr1] eqn:Hq.
    apply createRpcQueue_wf in Hq as [Hwf2 Hin]; [|by apply ensure_entry_wf].
    destruct r1 as [v|e]; [|by intros [= <- <- <- <-]].
    destruct (publishOrSendToQueue _ _ _ _) as [[ack|e] tr2];
      [|by intros [= <- <- <- <-]].
    unfold register. intros [= <- <- <- <-].
    eapply wf_update; [| |intros _|exact Hwf2]; [done..|]. by eapply Hin.
  - destruct (publishOrSendToQueue _ _ _ _) as [[ack|e] tr2];
      by intros [= <- <- <- <-].
Qed.

Lemma attempt_wf (env : AttemptEnv) (queue : string) (msg msg' : JsVal)
  (options options' : option JsObject) (st st' : State) (r : Result Reply)
  (tr : list Event) :
  wf st →
  attempt hostname parsers_out env queue msg options st = (r, msg', options', st', tr) →
  wf st'.
Proof.
  intros Hwf. unfold attempt.
  destruct (env_get env) as [c|e]; [|by intros [= <- <- <- <- <-]].
  destruct (checkRpc _ _ _ _ _ _) as [[[r1 o1] st1] tr1] eqn:Hc.
  intros [= <- <- <- <- <-].
  eapply checkRpc_wf; [|exact Hc]. by eapply wf_same; [| |exact Hwf].
Qed.

Lemma produce_wf (script : list AttemptEnv) (queue : string) (msg : JsVal)
  (options : option JsObject) (st : State) :
  wf st →
  wf (snd (fst (produce hostname timeout parsers_out script queue msg options st))).
Proof.
  revert msg options st.
  induction script as [|env rest IH]; intros msg options st Hwf; [done|].
  cbn [produce].
  destruct (attempt _ _ _ _ _ _ _) as [[[[r m'] o'] st'] tr] eqn:Ha.
  apply attempt_wf in Ha; [|done].
  destruct r as [r|e]; [done|].
  specialize (IH m' o' st' Ha).
  by destruct (produce _ _ _ rest _ _ _ _) as [[p st''] tr'].
Qed.

Lemma maybeAnswer_wf (queue : string) (m : Message) (st : State) :
  wf st → wf (snd (fst (maybeAnswer parsers_in queue m st))).
Proof.
  intros Hwf. unfold maybeAnswer.
  destruct (amqpRPCQueues st !! queue) as [entry|] eqn:He; [|done].
  destruct (entry !! _) as [v|] eqn:Hv; [|done].
  destruct v; try done. cbn.
  eapply wf_update; [| |intros Ht|exact Hwf]; [done..|].
  eapply (proj2 Hwf); [exact He|].
  unfold prop in *.
  destruct (decide (prop_key (correlationId (properties m)) = "queue"%string)) as [Hk|Hk].
  - rewrite Hk, lookup_delete_eq in Ht. done.
  - by rewrite lookup_delete_ne in Ht.
Qed.

Lemma emit_close_wf (st : State) : wf st → wf (snd (emit_close st)).
Proof.
  intros [Hle Hcl]. unfold emit_close.
  destruct (emit_to_spec (listeners st) st Hle) as (st' & -> & Hl & _ & Hreg).
  cbn. split.
  - intros q Hin. rewrite Hl in Hin. rewrite Hreg, decide_True by done.
    destruct (Hle q Hin) as [e ->]. cbn. eauto.
  - intros q e He Ht. rewrite Hl. rewrite Hreg in He.
    case_decide as Hin; [done|]. by eapply Hcl.
Qed.

(** ** The RPC branch of checkRpc *)

Lemma ensure_entry_lookup (queue : string) (st : State) :
  amqpRPCQueues (ensure_entry queue st) !! queue =
  Some (default ∅ (amqpRPCQueues st !! queue)).
Proof.
  unfold ensure_entry. destruct (amqpRPCQueues st !! queue) eqn:He; cbn.
  - by rewrite He.
  - by rewrite lookup_insert_eq.
Qed.

(** X15: within one attempt of an RPC produce that starts on a destination
    with no cached response queue, whenever the request is sent, the queue
    named destination:hostname:res has been declared durable and exclusive
    and a no-ack consumer has been started on the declared queue before, in
    that same attempt, and the request carries the fresh correlationId and
    the name of that queue as replyTo. *)
Theorem first_rpc_declares_and_consumes_before_send (env : AttemptEnv)
  (queue : string) (msg msg' : JsVal) (o : JsObject) (o' : option JsObject)
  (st st' : State) (r : Result Reply) (tr : list Event) (e : Event) :
  truthy (prop o "rpc") = true →
  truthy (prop (default ∅ (amqpRPCQueues st !! queue)) "queue") = false →
  attempt hostname parsers_out env queue msg (Some o) st = (r, msg', o', st', tr) →
  e ∈ tr → is_send e = true →
  ∃ name suffix opts,
    env_assertQueue env = Ok name ∧
    tr = [EGet; EYield; ELogOut queue (normalize msg);
          EAssertQueue (resQueue hostname queue) true true; EYield;
          ECacheName queue name; EAddListener "close" queue;
          EConsume name queue true; EYield; EYield; e] ++ suffix ∧
    send_options e = Some opts ∧
    opts !! "correlationId" = Some (JStr (env_uuid env)) ∧
    opts !! "replyTo" = Some (JStr name).
Proof.
  intros Hrpc Hnc. unfold attempt.
  destruct (env_get env) as [c|err].
  2:{ intros [= <- <- <- <- <-] Hin Hs. find_send Hin. }
  change (default default_options (Some o)) with o.
  unfold checkRpc. cbv zeta. rewrite prop_insert_ne by done. rewrite Hrpc.
  unfold createRpcQueue. rewrite ensure_entry_lookup.
  cbn [set_channel amqpRPCQueues]. rewrite Hnc.
  destruct (env_assertQueue env) as [name|err].
  2:{ intros [= <- <- <- <- <-] Hin Hs. find_send Hin. }
  destruct (env_consume env) as [u|err].
  2:{ intros [= <- <- <- <- <-] Hin Hs. find_send Hin. }
  cbn [amqpRPCQueues add_listener set_registry].
  rewrite lookup_insert_eq. cbn [default from_option id]. rewrite prop_insert_eq.
  unfold publishOrSendToQueue, register.
  destruct (negb _); destruct (env_send env) as [ack|err];
    intros [= <- <- <- <- <-] Hin Hs; find_send Hin;
    (eexists name, _, _; split; [done|]; split; [reflexivity|]; split; [reflexivity|]);
    (split; [by rewrite lookup_insert_ne, lookup_insert_eq | by rewrite lookup_insert_eq]).
Qed.

Lemma maybeAnswer_deferred (queue : string) (m : Message) (st : State)
  (entry : JsObject) (d : nat) :
  amqpRPCQueues st !! queue = Some entry →
  entry !! prop_key (correlationId (properties m)) = Some (JDeferred d) →
  maybeAnswer parsers_in queue m st =
    (Ok tt,
     set_registry
       (<[queue := delete (prop_key (correlationId (properties m))) entry]>
          (amqpRPCQueues st))
       (set_deferreds (resolve d (parsers_in m) (deferreds st)) st),
     [EResolve d (parsers_in m); ELogIn queue (parsers_in m);
      EUnregister queue (prop_key (correlationId (properties m)))]).
Proof. intros He Hc. unfold maybeAnswer. by rewrite He, Hc. Qed.

(** C1, as the code has it: in the RPC branch the routed send is performed
    first and the pending handle is stored under the fresh correlation id
    directly after it, in the same callback, with no suspension point in
    between; when the callback returns the handle is in the registry and
    pending, so a reply dispatched afterwards with that correlation id
    finds it and fulfils it. *)
Theorem checkRpc_registers_right_after_send (env : AttemptEnv) (queue : string)
  (body : Bytes) (options options' : JsObject) (st st' : State) (r : Reply)
  (tr : list Event) :
  truthy (prop options "rpc") = true →
  checkRpc hostname env queue body options st = (Ok r, options', st', tr) →
  ∃ pre e d entry,
    r = Awaiting d ∧
    tr = pre ++ [e; ERegister queue (env_uuid env) d] ∧
    is_send e = true ∧
    Forall (λ x, is_send x = false ∧ is_register x = false) pre ∧
    amqpRPCQueues st' !! queue = Some entry ∧
    entry !! env_uuid env = Some (JDeferred d) ∧
    deferreds st' !! d = Some Pending ∧
    ∀ m, correlationId (properties m) = Some (env_uuid env) →
      ∃ st'', maybeAnswer parsers_in queue m st' =
                (Ok tt, st'',
                 [EResolve d (parsers_in m); ELogIn queue (parsers_in m);
                  EUnregister queue (env_uuid env)]) ∧
              deferreds st'' !! d = Some (Fulfilled (parsers_in m)).
Proof.
  intros Hrpc. unfold checkRpc. cbv zeta. rewrite prop_insert_ne by done. rewrite Hrpc.
  destruct (createRpcQueue _ _ _ _) as [[r1 st2] tr1] eqn:Hq.
  destruct r1 as [v|err]; [|done].
  assert (Hpre : Forall (λ x, is_send x = false ∧ is_register x = false) tr1).
  { revert Hq. unfold createRpcQueue.
    repeat case_match; intros [= <- <- <-]; repeat constructor. }
  unfold publishOrSendToQueue, register.
  set (d := length (deferreds st2)).
  assert (Hd : (deferreds st2 ++ [Pending]) !! d = Some Pending).
  { subst d. rewrite lookup_app_r by done. by rewrite Nat.sub_diag. }
  destruct (negb _); destruct (env_send env) as [ack|err]; try done;
    intros [= <- <- <- <-];
    (eexists tr1, _, d, _; split; [done|]; split; [reflexivity|]; split; [done|];
     split; [done|]; split; [by cbn; rewrite lookup_insert_eq|];
     split; [by rewrite lookup_insert_eq|]; split; [done|]);
    intros m Hm; eexists;
    (split;
     [ erewrite maybeAnswer_deferred;
       [by rewrite Hm | by cbn; rewrite lookup_insert_eq
        | by rewrite Hm; cbn; rewrite lookup_insert_eq]
     | by apply resolve_pending ]).
Qed.

(** checkRpc marks every message persistent, whatever the caller passed. *)
Lemma checkRpc_sends_persistent (env : AttemptEnv) (queue : string) (body : Bytes)
  (options options' : JsObject) (st st' : State) (r : Result Reply)
  (tr : list Event) (e : Event) (opts : JsObject) :
  checkRpc hostname env queue body options st = (r, options', st', tr) →
  e ∈ tr → send_options e = Some opts →
  opts !! "persistent" = Some (JBool true).
Proof.
  unfold checkRpc. cbv zeta.
  destruct (truthy _).
  - destruct (createRpcQueue _ _ _ _) as [[r1 st2] tr1] eqn:Hq.
    assert (Hpre : Forall (λ x, send_options x = None) tr1).
    { revert Hq. unfold createRpcQueue.
      repeat case_match; intros [= <- <- <-]; repeat constructor. }
    rewrite Forall_forall in Hpre.
    unfold publishOrSendToQueue, register.
    destruct r1 as [v|err];
      [destruct (negb _); destruct (env_send env) as [ack|err]|];
      intros [= <- <- <- <-] Hin Hs;
      repeat (apply elem_of_app in Hin as [Hin|Hin]);
      try (apply Hpre in Hin; congruence);
      find_send Hin; cbn in Hs; simplify_eq;
      repeat (rewrite lookup_insert_ne by done); by rewrite lookup_insert_eq.
  - unfold publishOrSendToQueue.
    destruct (negb _); destruct (env_send env) as [ack|err];
      intros [= <- <- <- <-] Hin Hs; find_send Hin; cbn in Hs; simplify_eq;
      by rewrite lookup_insert_eq.
Qed.

(** ** The retry loop *)

Lemma error_logs_app (a b : list Event) : error_logs (a ++ b) = (error_logs a + error_logs b)%nat.
Proof. unfold error_logs. by rewrite List.filter_app, length_app. Qed.

Lemma waits_app (a b : list Event) : waits (a ++ b) = waits a ++ waits b.
Proof. apply omap_app. Qed.

Lemma payloads_app (a b : list Event) : payloads (a ++ b) = payloads a ++ payloads b.
Proof. apply omap_app. Qed.

Lemma bodies_app (a b : list Event) : bodies (a ++ b) = bodies a ++ bodies b.
Proof. apply omap_app. Qed.

Lemma checkRpc_events (env : AttemptEnv) (queue : string) (body : Bytes)
  (options options' : JsObject) (st st' : State) (r : Result Reply) (tr : list Event) :
  checkRpc hostname env queue body options st = (r, options', st', tr) →
  error_logs tr = 0%nat ∧ waits tr = [] ∧ payloads tr = [] ∧
  Forall (λ b, b = body) (bodies tr).
Proof.
  unfold checkRpc, createRpcQueue, publishOrSendToQueue, register.
  cbv zeta. repeat case_match; simplify_eq; intros [= <- <- <- <-];
    repeat split; repeat constructor.
Qed.

Lemma checkRpc_ok_sent (env : AttemptEnv) (queue : string) (body : Bytes)
  (options options' : JsObject) (st st' : State) (r : Reply) (tr : list Event) :
  checkRpc hostname env queue body options st = (Ok r, options', st', tr) →
  ∃ ack e,
    env_send env = Ok ack ∧ e ∈ tr ∧ is_send e = true ∧
    match r with
    | Sent a => a = ack
    | Awaiting d => deferreds st' !! d = Some Pending
    end.
Proof.
  unfold checkRpc, publishOrSendToQueue, register. cbv zeta.
  destruct (truthy _).
  - destruct (createRpcQueue _ _ _ _) as [[[v|err] st2] tr1]; [|done].
    destruct (negb _); destruct (env_send env) as [ack|err]; try done;
      intros [= <- <- <- <-]; eexists ack, _;
      (split; [done|]); (split; [apply elem_of_app; right; by left|]);
      (split; [reflexivity|]);
      cbn; rewrite lookup_app_r by done; by rewrite Nat.sub_diag.
  - destruct (negb _); destruct (env_send env) as [ack|err]; try done;
      intros [= <- <- <- <-]; eexists ack, _;
      (split; [done|]); (split; [by left|]); by split.
Qed.

Lemma attempt_events (env : AttemptEnv) (queue : string) (msg msg' : JsVal)
  (options options' : option JsObject) (st st' : State) (r : Result Reply)
  (tr : list Event) :
  attempt hostname parsers_out env queue msg options st = (r, msg', options', st', tr) →
  error_logs tr = 0%nat ∧ waits tr = [] ∧
  normalize msg' = normalize msg ∧
  Forall (λ p, p = normalize msg) (payloads tr) ∧
  Forall (λ b, ∃ o, b = parsers_out (normalize msg) o) (bodies tr).
Proof.
  unfold attempt. destruct (env_get env) as [c|err].
  - destruct (checkRpc _ _ _ _ _ _) as [[[r1 o1] st1] tr1] eqn:Hc.
    apply checkRpc_events in Hc as (He & Hw & Hp & Hb).
    intros [= <- <- <- <- <-].
    change (EGet :: EYield :: ELogOut queue (normalize msg) :: tr1)
      with ([EGet; EYield; ELogOut queue (normalize msg)] ++ tr1).
    rewrite error_logs_app, waits_app, payloads_app, bodies_app, He, Hw, Hp.
    repeat split; [apply normalize_idem | by repeat constructor |].
    cbn. eapply Forall_impl; [exact Hb|]. intros b ->. eauto.
  - intros [= <- <- <- <- <-]. repeat split; constructor.
Qed.

Lemma attempt_ok_sent (env : AttemptEnv) (queue : string) (msg msg' : JsVal)
  (options options' : option JsObject) (st st' : State) (r : Reply) (tr : list Event) :
  attempt hostname parsers_out env queue msg options st = (Ok r, msg', options', st', tr) →
  ∃ ack e,
    env_send env = Ok ack ∧ e ∈ tr ∧ is_send e = true ∧
    match r with
    | Sent a => a = ack
    | Awaiting d => deferreds st' !! d = Some Pending
    end.
Proof.
  unfold attempt. destruct (env_get env) as [c|err]; [|done].
  destruct (checkRpc _ _ _ _ _ _) as [[[r1 o1] st1] tr1] eqn:Hc.
  intros [= -> <- <- <- <-].
  apply checkRpc_ok_sent in Hc as (ack & e & Hs & Hin & He & Hr).
  exists ack, e. repeat split; try done. by do 3 right.
Qed.


(** ** What an attempt logs and sends *)

Lemma createRpcQueue_quiet (env : AttemptEnv) (queue : string) (st st' : State)
  (r : Result JsVal) (tr : list Event) :
  createRpcQueue hostname env queue st = (r, st', tr) →
  payloads tr = [] ∧ bodies tr = [].
Proof. unfold createRpcQueue. repeat case_match; intros [= <- <- <-]; by split. Qed.

Lemma checkRpc_bodies (env : AttemptEnv) (queue : string) (body : Bytes)
  (options options' : JsObject) (st st' : State) (r : Result Reply) (tr : list Event) :
  checkRpc hostname env queue body options st = (r, options', st', tr) →
  payloads tr = [] ∧
  Forall (λ b, b = body) (bodies tr) ∧
  (∀ rep, r = Ok rep → bodies tr = [body]) ∧
  (truthy (prop options "rpc") = false → bodies tr = [body]).
Proof.
  unfold checkRpc. cbv zeta. rewrite prop_insert_ne by done.
  destruct (truthy (prop options "rpc")) eqn:Hrpc.
  - destruct (createRpcQueue _ _ _ _) as [[r1 st2] tr1] eqn:Hq.
    apply createRpcQueue_quiet in Hq as [Hp Hb].
    destruct r1 as [v|err].
    + unfold publishOrSendToQueue, register.
      destruct (negb _); destruct (env_send env) as [ack|err];
        intros [= <- <- <- <-];
        rewrite ?payloads_app, ?bodies_app, Hp, Hb; cbn;
        repeat split; try done; by repeat constructor.
    + intros [= <- <- <- <-]. rewrite Hp, Hb. by repeat split.
  - unfold publishOrSendToQueue.
    destruct (negb _); destruct (env_send env) as [ack|err];
      intros [= <- <- <- <-]; cbn; repeat split; try done; by repeat constructor.
Qed.

Lemma attempt_with_channel_bodies (env : AttemptEnv) (queue : string) (msg : JsVal)
  (options : option JsObject) (st : State) (c : nat) :
  env_get env = Ok c →
  ∃ r o' st' tr,
    attempt hostname parsers_out env queue msg options st =
      (r, normalize msg, Some o', st',
       [EGet; EYield; ELogOut queue (normalize msg)] ++ tr) ∧
    payloads tr = [] ∧
    Forall (λ b, b = parsers_out (normalize msg) (default default_options options))
      (bodies tr) ∧
    (∀ rep, r = Ok rep →
       bodies tr = [parsers_out (normalize msg) (default default_options options)]) ∧
    (truthy (prop (default default_options options) "rpc") = false →
       bodies tr = [parsers_out (normalize msg) (default default_options options)]).
Proof.
  intros Hg. unfold attempt. rewrite Hg.
  destruct (checkRpc _ _ _ _ _ _) as [[[r1 o1] st1] tr1] eqn:Hc.
  apply checkRpc_bodies in Hc. by eexists _, _, _, _.
Qed.


Lemma produce_payloads (script : list AttemptEnv) (queue : string) (msg : JsVal)
  (options : option JsObject) (st : State) :
  Forall (λ p, p = normalize msg)
    (payloads (snd (produce hostname timeout parsers_out script queue msg options st))) ∧
  Forall (λ b, ∃ o, b = parsers_out (normalize msg) o)
    (bodies (snd (produce hostname timeout parsers_out script queue msg options st))).
Proof.
  revert msg options st.
  induction script as [|env rest IH]; intros msg options st.
  - split; constructor.
  - cbn [produce].
    destruct (attempt _ _ _ _ _ _ _) as [[[[r m'] o'] st'] tr] eqn:Ha.
    apply attempt_events in Ha as (_ & _ & Hn & Hp & Hb).
    destruct r as [r|err]; [by split|].
    destruct (IH m' o' st') as [Hp' Hb']. rewrite Hn in Hp', Hb'.
    destruct (produce _ _ _ rest _ _ _ _) as [[p st''] tr'].
    cbn [snd] in *. rewrite !payloads_app, !bodies_app. split.
    + apply Forall_app. split; [done|]. by apply Forall_app.
    + apply Forall_app. split; [done|]. by apply Forall_app.
Qed.

(** C10: a falsy payload (undefined, null, 0, false, the empty string, NaN)
    is replaced by null before it is logged, encoded and sent.  In every
    attempt that gets a channel the payload logged is null, the variable
    the retry reads holds null, every body handed to the channel is the
    encoding of null, and exactly one such body is sent by a plain attempt
    and by every attempt that succeeds; over a whole produce every payload
    logged is null and every body sent is an encoding of null; the call
    behaves exactly as the call with payload null; and each of the six
    listed values is falsy. *)
Theorem produce_falsy_payload_is_null (msg : JsVal) :
  truthy msg = false →
  normalize msg = JNull ∧
  (∀ env queue options st c,
     env_get env = Ok c →
     ∃ r o' st' tr,
       attempt hostname parsers_out env queue msg options st =
         (r, JNull, Some o', st', [EGet; EYield; ELogOut queue JNull] ++ tr) ∧
       payloads tr = [] ∧
       Forall (λ b, b = parsers_out JNull (default default_options options)) (bodies tr) ∧
       (∀ rep, r = Ok rep →
          bodies tr = [parsers_out JNull (default default_options options)]) ∧
       (truthy (prop (default default_options options) "rpc") = false →
          bodies tr = [parsers_out JNull (default default_options options)])) ∧
  (∀ script queue options st,
     Forall (λ p, p = JNull)
       (payloads (snd (produce hostname timeout parsers_out script queue msg options st))) ∧
     Forall (λ b, ∃ o, b = parsers_out JNull o)
       (bodies (snd (produce hostname timeout parsers_out script queue msg options st)))) ∧
  (∀ script queue options st,
     produce hostname timeout parsers_out script queue msg options st =
     produce hostname timeout parsers_out script queue JNull options st) ∧
  Forall (λ v, truthy v = false)
    [JUndefined; JNull; JNum 0; JBool false; JStr EmptyString; JNaN].
Proof.
  intros Hf. pose proof (normalize_falsy msg Hf) as Hn.
  split; [done|]. split; [|split; [|split]].
  - intros env queue options st c Hg.
    destruct (attempt_with_channel_bodies env queue msg options st c Hg)
      as (r & o' & st' & tr & Ha & H). rewrite Hn in Ha, H. by eexists _, _, _, _.
  - intros script queue options st.
    pose proof (produce_payloads script queue msg options st) as H. by rewrite Hn in H.
  - intros. rewrite <- (produce_normalize _ _ msg). by rewrite Hn.
  - repeat constructor.
Qed.



(** C5: the promise of produce is never rejected.  Either every attempt of
    the script failed, each failure was logged and followed by a wait of
    the configured delay and a new attempt, and the promise is still
    pending; or some attempt succeeded after a run of failed ones, and the
    promise settles as that attempt did: its send went through, and in RPC
    mode the promise is the one of a handle that is pending until a reply
    is dispatched. *)
Theorem produce_never_rejects (script : list AttemptEnv) (queue : string)
  (msg : JsVal) (options : option JsObject) (st : State) :
  ∃ p st' tr,
    produce hostname timeout parsers_out script queue msg options st = (p, st', tr) ∧
    (∀ e, p ≠ PRejected e) ∧
    ((∃ log m o,
        run_failures hostname parsers_out script queue msg options st =
          Some (log, m, o, st') ∧
        length log = length script ∧
        error_logs tr = length script ∧
        waits tr = replicate (length script) timeout ∧
        p = PPending ∧ tr = retry_trace timeout log ++ [EGet])
     ∨
     (∃ fails env rest log m o s r mN oN trN ack,
        script = fails ++ env :: rest ∧
        run_failures hostname parsers_out fails queue msg options st =
          Some (log, m, o, s) ∧
        attempt hostname parsers_out env queue m o s = (Ok r, mN, oN, st', trN) ∧
        env_send env = Ok ack ∧
        p = promise_of r ∧ tr = retry_trace timeout log ++ trN ∧
        match r with
        | Sent a => a = ack
        | Awaiting d => deferreds st' !! d = Some Pending
        end)).
Proof.
  revert msg options st.
  induction script as [|env rest IH]; intros msg options st.
  - eexists _, _, _. split; [reflexivity|]. split; [done|].
    left. by eexists [], msg, options.
  - cbn [produce run_failures].
    destruct (attempt _ _ _ _ _ _ _) as [[[[r m1] o1] s1] tr1] eqn:Ha.
    destruct r as [r|err].
    + eexists _, _, _. split; [reflexivity|]. split; [by destruct r|].
      right. apply attempt_ok_sent in Ha as Hs.
      destruct Hs as (ack & e & Hs & _ & _ & Hr).
      by eexists [], env, rest, [], msg, options, st, r, m1, o1, tr1, ack.
    + apply attempt_events in Ha as Hev. destruct Hev as (He & Hw & _).
      destruct (IH m1 o1 s1) as (p & st' & tr & Hp & Hnr & Hcases).
      rewrite Hp. eexists _, _, _. split; [reflexivity|]. split; [done|].
      destruct Hcases as [(log & m & o & Hrf & Hlen & Hel & Hwl & -> & ->)
                         |(fails & env' & rest' & log & m & o & s & r & mN & oN & trN & ack
                           & -> & Hrf & Hat & Hs & -> & -> & Hr)].
      * left. exists ((tr1, err) :: log), m, o. rewrite Hrf.
        split; [done|]. split; [by cbn; rewrite Hlen|].
        split.
        { rewrite !error_logs_app, He. rewrite error_logs_app in Hel.
          cbn in *. lia. }
        split.
        { rewrite !waits_app, Hw. rewrite waits_app in Hwl.
          cbn in *. by rewrite Hwl. }
        split; [done|].
        cbn [retry_trace]. by rewrite <- !app_assoc.
      * right.
        exists (env :: fails), env', rest', ((tr1, err) :: log), m, o, s, r, mN, oN, trN, ack.
        cbn [run_failures]. rewrite Ha, Hrf. repeat split; try done.
        cbn [retry_trace]. by rewrite <- !app_assoc.
Qed.

End Properties.

(** * The properties on the concrete producer *)

Lemma wf_after_rpc : wf Sample.after_rpc.
Proof. apply produce_wf, wf_initial. Qed.

Lemma produce_falsy_payload_is_null_witness :
  truthy JUndefined = false ∧
  env_get Sample.env_ok = Ok 1%nat ∧
  normalize JUndefined = JNull ∧
  (∃ r o' st' tr,
     attempt Sample.hostname Sample.parsers_out Sample.env_ok "queueName"
       JUndefined None initial =
       (r, JNull, Some o', st', [EGet; EYield; ELogOut "queueName" JNull] ++ tr) ∧
     bodies tr = [Sample.parsers_out JNull default_options]) ∧
  produce Sample.hostname Sample.timeout Sample.parsers_out
    [Sample.env_ok] "queueName" JUndefined None initial =
  produce Sample.hostname Sample.timeout Sample.parsers_out
    [Sample.env_ok] "queueName" JNull None initial.
Proof.
  split; [reflexivity|]. split; [reflexivity|].
  destruct (produce_falsy_payload_is_null Sample.hostname Sample.timeout
              Sample.parsers_out JUndefined eq_refl) as (Hn & Ha & _ & Hp & _).
  split; [exact Hn|]. split; [|apply Hp].
  destruct (Ha Sample.env_ok "queueName"%string None initial 1%nat eq_refl)
    as (r & o' & st' & tr & Heq & _ & _ & _ & Hb).
  exists r, o', st', tr. split; [exact Heq|]. apply Hb. by_computation.
Defined.

Lemma maybeAnswer_delivers_once_witness :
  amqpRPCQueues Sample.after_rpc !! "service-oauth" = Some SampleRuns.pending_entry ∧
  SampleRuns.pending_entry !! SampleRuns.uuid = Some (JDeferred 0) ∧
  deferreds Sample.after_rpc !! 0%nat = Some Pending ∧
  ∃ st',
    fst (maybeAnswer Sample.parsers_in "service-oauth" SampleRuns.pong Sample.after_rpc)
      = (Ok tt, st') ∧
    deferreds st' !! 0%nat = Some (Fulfilled (JStr "pong")) ∧
    maybeAnswer Sample.parsers_in "service-oauth" SampleRuns.pong st' = (Ok tt, st', []).
Proof.
  assert (He : amqpRPCQueues Sample.after_rpc !! "service-oauth"
               = Some SampleRuns.pending_entry) by by_computation.
  assert (Hc : SampleRuns.pending_entry
                 !! prop_key (correlationId (properties SampleRuns.pong))
               = Some (JDeferred 0)) by by_computation.
  assert (Hd : deferreds Sample.after_rpc !! 0%nat = Some Pending) by by_computation.
  split; [exact He|]. split; [exact Hc|]. split; [exact Hd|].
  destruct (maybeAnswer_delivers_once Sample.parsers_in "service-oauth"
              SampleRuns.pong Sample.after_rpc SampleRuns.pending_entry 0 He Hc Hd)
    as (st' & Hm & Hf & _ & _ & _ & Hagain).
  exists st'. split; [by rewrite Hm|]. split; [exact Hf | exact Hagain].
Defined.

(** With the response queue of "service-oauth" already cached, the call
    resolves with undefined, not with the cached queue name. *)
Lemma createRpcQueue_cached_resolves_undefined :
  prop (default ∅ (amqpRPCQueues Sample.ready !! "service-oauth")) "queue" =
    JStr "service-oauth:gateway-http:res" ∧
  ∃ v, fst (fst (createRpcQueue Sample.hostname Sample.env_ok "service-oauth" Sample.ready))
         = Ok v ∧
       v ≠ JStr "service-oauth:gateway-http:res".
Proof.
  split; [by_computation|]. exists JUndefined. split; [by_computation | discriminate].
Qed.

Lemma createRpcQueue_declares_once_witness :
  amqpRPCQueues (ensure_entry "service-oauth" initial) !! "service-oauth" = Some ∅ ∧
  ∃ r1 st1 tr1,
    createRpcQueue Sample.hostname Sample.env_ok "service-oauth"
      (ensure_entry "service-oauth" initial) = (r1, st1, tr1) ∧
    createRpcQueue Sample.hostname Sample.env_down "service-oauth" st1 =
      (Ok JUndefined, st1, [EYield]) ∧
    declarations (tr1 ++ [EYield]) = 1%nat.
Proof.
  assert (He : amqpRPCQueues (ensure_entry "service-oauth" initial) !! "service-oauth"
               = Some ∅) by by_computation.
  split; [exact He|].
  destruct (createRpcQueue_declares_once Sample.hostname Sample.env_ok Sample.env_down
              "service-oauth" (ensure_entry "service-oauth" initial) ∅ He)
    as [_ H].
  apply (H eq_refl "service-oauth:gateway-http:res"%string eq_refl).
  discriminate.
Defined.



(** On the first RPC produce to "service-oauth" the send is event 10 of the
    trace and the registration of the pending handle is event 11: the
    handle is not inserted before the send. *)
Lemma rpc_send_precedes_registration : ¬ registers_before_sends Sample.rpc_trace.
Proof.
  intros H.
  assert (H1 : Sample.rpc_trace !! 11%nat
               = Some (ERegister "service-oauth" SampleRuns.uuid 0)) by by_computation.
  assert (H2 : Sample.rpc_trace !! 10%nat
               = Some (nth 10 Sample.rpc_trace EGet)) by by_computation.
  assert (R2 : is_send (nth 10 Sample.rpc_trace EGet) = true) by by_computation.
  specialize (H 11%nat 10%nat _ _ H1 eq_refl H2 R2). lia.
Qed.

Lemma checkRpc_registers_right_after_send_witness :
  truthy (prop Sample.rpc_options "rpc") = true ∧
  ∃ pre e d,
    snd SampleRuns.rpc_check = pre ++ [e; ERegister "service-oauth" SampleRuns.uuid d] ∧
    is_send e = true.
Proof.
  assert (Hrpc : truthy (prop Sample.rpc_options "rpc") = true) by by_computation.
  split; [exact Hrpc|].
  assert (Hc : SampleRuns.rpc_check =
               (Ok (Awaiting 0), snd (fst (fst SampleRuns.rpc_check)),
                snd (fst SampleRuns.rpc_check), snd SampleRuns.rpc_check))
    by by_computation.
  destruct (checkRpc_registers_right_after_send Sample.hostname Sample.parsers_in
              Sample.env_ok "service-oauth" [] Sample.rpc_options _ initial _ _ _
              Hrpc Hc) as (pre & e & d & entry & _ & Ht & Hs & _).
  exists pre, e, d. split; [exact Ht | exact Hs].
Defined.

(** C7 does not hold of the code: a caller passes
    persistent: false, and the message is nevertheless handed to the channel
    with persistent: true. *)
Theorem produce_overrides_persistent_false :
  Sample.transient_options !! "persistent" = Some (JBool false) ∧
  (λ o : JsObject, o !! "persistent") <$>
    omap send_options
      (snd (produce Sample.hostname Sample.timeout Sample.parsers_out [Sample.env_ok]
              "queueName" (JStr "hello world!") (Some Sample.transient_options) initial))
  = [Some (JBool true)].
Proof. split; by_computation. Qed.

(** C8 does not hold of the code: a reply whose correlation id is
    "queue" matches no pending handle, yet it passes the test of the
    dispatcher, which then calls resolve on the cached queue name and
    throws a TypeError; after a close event it does so on null. *)
Theorem maybeAnswer_queue_key_throws :
  maybeAnswer Sample.parsers_in "service-oauth" (Sample.reply "queue" "pong")
    Sample.after_rpc = (Err TypeError, Sample.after_rpc, []) ∧
  fst (fst (maybeAnswer Sample.parsers_in "service-oauth" (Sample.reply "queue" "pong")
              SampleRuns.after_close)) = Err TypeError.
Proof. split; by_computation. Qed.

Lemma first_rpc_declares_and_consumes_before_send_witness :
  truthy (prop Sample.rpc_options "rpc") = true ∧
  truthy (prop (default ∅ (amqpRPCQueues initial !! "service-oauth")) "queue") = false ∧
  ∃ e suffix opts,
    snd SampleRuns.rpc_attempt =
      [EGet; EYield; ELogOut "service-oauth" (JStr "ping");
       EAssertQueue "service-oauth:gateway-http:res" true true; EYield;
       ECacheName "service-oauth" "service-oauth:gateway-http:res";
       EAddListener "close" "service-oauth";
       EConsume "service-oauth:gateway-http:res" "service-oauth" true;
       EYield; EYield; e] ++ suffix ∧
    send_options e = Some opts ∧
    opts !! "correlationId" = Some (JStr SampleRuns.uuid) ∧
    opts !! "replyTo" = Some (JStr "service-oauth:gateway-http:res").
Proof.
  assert (Hrpc : truthy (prop Sample.rpc_options "rpc") = true) by by_computation.
  assert (Hnc : truthy (prop (default ∅ (amqpRPCQueues initial !! "service-oauth")) "queue")
                = false) by by_computation.
  split; [exact Hrpc|]. split; [exact Hnc|].
  assert (Ha : SampleRuns.rpc_attempt =
               (fst (fst (fst (fst SampleRuns.rpc_attempt))),
                snd (fst (fst (fst SampleRuns.rpc_attempt))),
                snd (fst (fst SampleRuns.rpc_attempt)),
                snd (fst SampleRuns.rpc_attempt), snd SampleRuns.rpc_attempt))
    by (by destruct SampleRuns.rpc_attempt as [[[[? ?] ?] ?] ?]).
  assert (He : snd SampleRuns.rpc_attempt !! 10%nat
               = Some (nth 10 (snd SampleRuns.rpc_attempt) EGet)) by by_computation.
  assert (Hs : is_send (nth 10 (snd SampleRuns.rpc_attempt) EGet) = true) by by_computation.
  destruct (first_rpc_declares_and_consumes_before_send Sample.hostname Sample.parsers_out
              Sample.env_ok "service-oauth" (JStr "ping") _ Sample.rpc_options _
              initial _ _ _ _ Hrpc Hnc Ha
              (proj2 (list_elem_of_lookup _ _) (ex_intro _ 10%nat He)) Hs)
    as (name & suffix & opts & Hn & Ht & Ho & Hc & Hr).
  injection Hn as <-.
  eexists _, suffix, opts. split; [exact Ht|]. split; [exact Ho|]. split; [exact Hc | exact Hr].
Defined.



(** C9 does not hold of the code: on the first RPC produce to
    "service-oauth" the broker answers the declaration and rejects the
    consume call.  The name is cached all the same, so the retry of that
    produce neither declares nor consumes: the only consume call of the
    produce is the rejected one, and the request is sent afterwards, with
    replyTo set to the cached name, and leaves the caller waiting on a
    handle while no consumer has been started. *)
Theorem first_rpc_retry_sends_without_consumer :
  env_consume SampleMore.env_consume_fails = Err (Rejection "channel closed") ∧
  fst (fst SampleMore.consume_rejected_run) = PAwaiting 0 ∧
  List.filter is_consume (snd SampleMore.consume_rejected_run) =
    [EConsume "service-oauth:gateway-http:res" "service-oauth" true] ∧
  snd SampleMore.consume_rejected_run !! 7%nat =
    Some (EConsume "service-oauth:gateway-http:res" "service-oauth" true) ∧
  snd SampleMore.consume_rejected_run !! 9%nat =
    Some (ELogError (Rejection "channel closed")) ∧
  List.filter is_consume (drop 10 (snd SampleMore.consume_rejected_run)) = [] ∧
  declarations (drop 10 (snd SampleMore.consume_rejected_run)) = 0%nat ∧
  is_send <$> (snd SampleMore.consume_rejected_run !! 16%nat) = Some true ∧
  ((snd SampleMore.consume_rejected_run !! 16%nat) ≫= send_options) ≫= (.!! "replyTo") =
    Some (JStr "service-oauth:gateway-http:res").
Proof. repeat split; by_computation. Qed.

(** * Further properties of the module *)

Section MoreProperties.

Variable hostname : string.
Variable timeout : Z.
Variable parsers_out : JsVal -> JsObject -> Bytes.
Variable parsers_in : Message -> JsVal.

(** ** What the operations leave in place *)










Lemma resolve_length (d : nat) (v : JsVal) (ds : list DState) :
  length (resolve d v ds) = length ds.
Proof. unfold resolve. repeat case_match; try done. apply length_insert. Qed.






Lemma step_wf (op : Op) (st : State) :
  wf st → wf (step hostname timeout parsers_out parsers_in op st).
Proof.
  intros Hwf. destruct op; cbn [step].
  - by apply produce_wf.
  - by apply maybeAnswer_wf.
  - by apply emit_close_wf.
Qed.

(** X1: whatever calls of produce, deliveries of replies and close events
    the module has gone through since it was loaded, every close listener
    finds the registry entry it writes to: the close event runs all the
    listeners and none of them throws. *)
Theorem close_event_never_throws (ops : list Op) :
  wf (run hostname timeout parsers_out parsers_in ops initial) ∧
  fst (emit_close (run hostname timeout parsers_out parsers_in ops initial)) = Ok tt.
Proof.
  assert (Hwf : ∀ st, wf st → wf (run hostname timeout parsers_out parsers_in ops st)).
  { induction ops as [|op rest IH]; intros st Hst; [done|].
    cbn [run]. by apply IH, step_wf. }
  specialize (Hwf initial wf_initial). split; [done|].
  unfold emit_close.
  destruct (emit_to_spec (listeners _) _ (proj1 Hwf)) as (st' & -> & _). done.
Qed.


End MoreProperties.

Section RpcScenarios.

Variable hostname : string.
Variable timeout : Z.
Variable parsers_out : JsVal -> JsObject -> Bytes.

(** ** RPC attempts step by step *)

Lemma attempt_with_channel (env : AttemptEnv) (queue : string) (msg : JsVal)
  (o : JsObject) (st : State) (c : nat) :
  env_get env = Ok c →
  attempt hostname parsers_out env queue msg (Some o) st =
    let '(r, o', st', tr) :=
      checkRpc hostname env queue (parsers_out (normalize msg) o) o (set_channel c st) in
    (r, normalize msg, Some o', st', [EGet; EYield; ELogOut queue (normalize msg)] ++ tr).
Proof. intros Hg. unfold attempt. by rewrite Hg. Qed.

Lemma checkRpc_rpc (env : AttemptEnv) (queue : string) (body : Bytes)
  (o : JsObject) (st : State) :
  truthy (prop o "rpc") = true →
  checkRpc hostname env queue body o st =
    match createRpcQueue hostname env queue (ensure_entry queue st) with
    | (Err e, st2, tr) => (Err e, <["persistent" := JBool true]> o, st2, tr)
    | (Ok _, st2, tr) =>
      let o3 :=
        <["replyTo" := prop (default ∅ (amqpRPCQueues st2 !! queue)) "queue"]>
          (<["correlationId" := JStr (env_uuid env)]> (<["persistent" := JBool true]> o)) in
      match publishOrSendToQueue env queue body o3 with
      | (Err e, tr2) => (Err e, o3, st2, tr ++ tr2)
      | (Ok _, tr2) =>
        (Ok (Awaiting (length (deferreds st2))), o3, snd (register queue (env_uuid env) st2),
         tr ++ tr2 ++ [ERegister queue (env_uuid env) (length (deferreds st2))])
      end
    end.
Proof.
  intros Hrpc. unfold checkRpc. cbv zeta. rewrite prop_insert_ne by done. rewrite Hrpc.
  destruct (createRpcQueue _ _ _ _) as [[[v|e] st2] tr]; [|done].
  by destruct (publishOrSendToQueue _ _ _ _) as [[ack|e] tr2].
Qed.

Lemma checkRpc_plain (env : AttemptEnv) (queue : string) (body : Bytes)
  (o : JsObject) (st : State) :
  truthy (prop o "rpc") = false →
  checkRpc hostname env queue body o st =
    match publishOrSendToQueue env queue body (<["persistent" := JBool true]> o) with
    | (Err e, tr) => (Err e, <["persistent" := JBool true]> o, st, tr)
    | (Ok ack, tr) => (Ok (Sent ack), <["persistent" := JBool true]> o, st, tr)
    end.
Proof.
  intros Hrpc. unfold checkRpc. cbv zeta. rewrite prop_insert_ne by done. by rewrite Hrpc.
Qed.

Lemma send_event (env : AttemptEnv) (queue : string) (body : Bytes) (o : JsObject) :
  ∃ e,
    publishOrSendToQueue env queue body o = (env_send env, [e]) ∧
    is_send e = true ∧ send_options e = Some o ∧ send_body e = Some body ∧
    e = (if truthy (prop o "routingKey")
         then EPublish queue (prop o "routingKey") body o
         else ESendToQueue queue body o).
Proof.
  unfold publishOrSendToQueue.
  destruct (truthy (prop o "routingKey")); cbn; eexists; by repeat split.
Qed.

(** X3: when the broker answers the declaration of the response queue but
    the start of the consumer is rejected, the queue name stays cached;
    without a close event in between, the retry neither declares nor
    consumes: it sends the request with replyTo set to the cached name and
    leaves the caller waiting on a handle, although the only consume call
    of the whole produce is the rejected one. *)
Theorem consume_failure_leaves_no_consumer (env1 env2 : AttemptEnv) (queue : string)
  (msg : JsVal) (o : JsObject) (st : State) (c1 c2 : nat) (name : string)
  (err : JsError) (ack : bool) :
  truthy (prop o "rpc") = true →
  truthy (prop (default ∅ (amqpRPCQueues st !! queue)) "queue") = false →
  env_get env1 = Ok c1 → env_assertQueue env1 = Ok name → name ≠ EmptyString →
  env_consume env1 = Err err →
  env_get env2 = Ok c2 → env_send env2 = Ok ack →
  ∃ st' e opts,
    produce hostname timeout parsers_out [env1; env2] queue msg (Some o) st =
      (PAwaiting (length (deferreds st)), st',
       [EGet; EYield; ELogOut queue (normalize msg);
        EAssertQueue (resQueue hostname queue) true true; EYield;
        ECacheName queue name; EAddListener "close" queue;
        EConsume name queue true; EYield;
        ELogError err; EWait timeout; EYield;
        EGet; EYield; ELogOut queue (normalize msg); EYield;
        e; ERegister queue (env_uuid env2) (length (deferreds st))]) ∧
    is_send e = true ∧ send_options e = Some opts ∧
    opts !! "replyTo" = Some (JStr name).
Proof.
  intros Hrpc Hnc Hg1 Ha1 Hn Hc1 Hg2 Hs2.
  cbn [produce].
  rewrite (attempt_with_channel env1 _ _ _ _ c1 Hg1), (checkRpc_rpc _ _ _ _ _ Hrpc).
  unfold createRpcQueue at 1. rewrite ensure_entry_lookup.
  cbn [set_channel amqpRPCQueues]. rewrite Hnc, Ha1, Hc1.
  set (entry1 := <["queue" := JStr name]> (default ∅ (amqpRPCQueues st !! queue))).
  set (st1 := add_listener queue _).
  assert (Hrpc' : truthy (prop (<["persistent" := JBool true]> o) "rpc") = true)
    by by rewrite prop_insert_ne.
  rewrite (attempt_with_channel env2 _ _ _ _ c2 Hg2), (checkRpc_rpc _ _ _ _ _ Hrpc').
  assert (He1 : amqpRPCQueues (set_channel c2 st1) !! queue = Some entry1).
  { subst st1. cbn. unfold ensure_entry. cbn.
    destruct (amqpRPCQueues st !! queue); cbn; by rewrite lookup_insert_eq. }
  assert (Hens : ensure_entry queue (set_channel c2 st1) = set_channel c2 st1).
  { unfold ensure_entry. by rewrite He1. }
  rewrite Hens.
  rewrite (createRpcQueue_cached hostname env2 queue _ entry1 He1)
    by (subst entry1; rewrite prop_insert_eq; by apply truthy_name).
  rewrite He1. cbn [default from_option id].
  subst entry1. rewrite prop_insert_eq.
  destruct (send_event env2 queue
              (parsers_out (normalize (normalize msg)) (<["persistent" := JBool true]> o))
              (<["replyTo" := JStr name]>
                 (<["correlationId" := JStr (env_uuid env2)]>
                    (<["persistent" := JBool true]> (<["persistent" := JBool true]> o)))))
    as (e & -> & He & Ho & _).
  assert (Hd : deferreds (set_channel c2 st1) = deferreds st).
  { subst st1. cbn. unfold ensure_entry. by destruct (amqpRPCQueues _ !! queue). }
  rewrite Hs2, normalize_idem, Hd.
  eexists _, e, _. split; [reflexivity|]. split; [done|]. split; [done|].
  by rewrite lookup_insert_eq.
Qed.

Lemma ensure_entry_fields (queue : string) (st : State) :
  deferreds (ensure_entry queue st) = deferreds st ∧
  listeners (ensure_entry queue st) = listeners st.
Proof. unfold ensure_entry. by destruct (amqpRPCQueues st !! queue). Qed.

(** X4: when the declaration of the response queue is rejected, nothing is
    cached and no listener is added; the retry declares the queue again,
    starts the consumer and only then sends, and the whole produce has
    added exactly one close listener. *)
Theorem rejected_declaration_is_repeated (env1 env2 : AttemptEnv) (queue : string)
  (msg : JsVal) (o : JsObject) (st : State) (c1 c2 : nat) (name : string)
  (err : JsError) (u : unit) (ack : bool) :
  truthy (prop o "rpc") = true →
  truthy (prop (default ∅ (amqpRPCQueues st !! queue)) "queue") = false →
  env_get env1 = Ok c1 → env_assertQueue env1 = Err err →
  env_get env2 = Ok c2 → env_assertQueue env2 = Ok name →
  env_consume env2 = Ok u → env_send env2 = Ok ack →
  ∃ st' e opts,
    produce hostname timeout parsers_out [env1; env2] queue msg (Some o) st =
      (PAwaiting (length (deferreds st)), st',
       [EGet; EYield; ELogOut queue (normalize msg);
        EAssertQueue (resQueue hostname queue) true true; EYield;
        ELogError err; EWait timeout; EYield;
        EGet; EYield; ELogOut queue (normalize msg);
        EAssertQueue (resQueue hostname queue) true true; EYield;
        ECacheName queue name; EAddListener "close" queue;
        EConsume name queue true; EYield; EYield;
        e; ERegister queue (env_uuid env2) (length (deferreds st))]) ∧
    is_send e = true ∧ send_options e = Some opts ∧
    opts !! "replyTo" = Some (JStr name) ∧
    listeners st' = listeners st ++ [queue].
Proof.
  intros Hrpc Hnc Hg1 Ha1 Hg2 Ha2 Hc2 Hs2.
  cbn [produce].
  rewrite (attempt_with_channel env1 _ _ _ _ c1 Hg1), (checkRpc_rpc _ _ _ _ _ Hrpc).
  unfold createRpcQueue at 1. rewrite ensure_entry_lookup.
  cbn [set_channel amqpRPCQueues]. rewrite Hnc, Ha1.
  set (st1 := ensure_entry queue _).
  assert (Hrpc' : truthy (prop (<["persistent" := JBool true]> o) "rpc") = true)
    by by rewrite prop_insert_ne.
  rewrite (attempt_with_channel env2 _ _ _ _ c2 Hg2), (checkRpc_rpc _ _ _ _ _ Hrpc').
  assert (He1 : amqpRPCQueues (set_channel c2 st1) !! queue
                = Some (default ∅ (amqpRPCQueues st !! queue))).
  { subst st1. cbn. by rewrite ensure_entry_lookup. }
  assert (Hens : ensure_entry queue (set_channel c2 st1) = set_channel c2 st1).
  { unfold ensure_entry. by rewrite He1. }
  rewrite Hens. unfold createRpcQueue. rewrite He1, Hnc, Ha2, Hc2.
  cbn [amqpRPCQueues add_listener set_registry set_channel].
  rewrite lookup_insert_eq. cbn [default from_option id]. rewrite prop_insert_eq.
  destruct (send_event env2 queue
              (parsers_out (normalize (normalize msg)) (<["persistent" := JBool true]> o))
              (<["replyTo" := JStr name]>
                 (<["correlationId" := JStr (env_uuid env2)]>
                    (<["persistent" := JBool true]> (<["persistent" := JBool true]> o)))))
    as (e & -> & He & Ho & _).
  assert (Hd : deferreds st1 = deferreds st)
    by (subst st1; by rewrite (proj1 (ensure_entry_fields _ _))).
  assert (Hl : listeners st1 = listeners st)
    by (subst st1; by rewrite (proj2 (ensure_entry_fields _ _))).
  rewrite Hs2, normalize_idem.
  cbn [deferreds listeners add_listener set_registry set_channel register snd].
  rewrite Hd.
  eexists _, e, _. split; [reflexivity|]. split; [done|]. split; [done|].
  split; [by rewrite lookup_insert_eq|].
  cbn. by rewrite Hl.
Qed.

(** X5: an RPC attempt on a destination whose response queue is cached
    declares nothing, starts no consumer and adds no listener: after
    acquiring the channel it goes straight to the send, with replyTo set
    to the cached name and correlationId to the fresh id. *)
Theorem cached_rpc_goes_straight_to_send (env : AttemptEnv) (queue : string)
  (msg msg' : JsVal) (o : JsObject) (o' : option JsObject) (st st' : State)
  (entry : JsObject) (c : nat) (r : Result Reply) (tr : list Event) :
  truthy (prop o "rpc") = true →
  amqpRPCQueues st !! queue = Some entry →
  truthy (prop entry "queue") = true →
  env_get env = Ok c →
  attempt hostname parsers_out env queue msg (Some o) st = (r, msg', o', st', tr) →
  ∃ e opts rest,
    tr = [EGet; EYield; ELogOut queue (normalize msg); EYield; e] ++ rest ∧
    is_send e = true ∧ send_options e = Some opts ∧
    opts !! "replyTo" = Some (prop entry "queue") ∧
    opts !! "correlationId" = Some (JStr (env_uuid env)) ∧
    declarations tr = 0%nat ∧
    Forall (λ x, is_consume x = false) tr ∧
    listeners st' = listeners st.
Proof.
  intros Hrpc He Ht Hg.
  rewrite (attempt_with_channel env _ _ _ _ c Hg), (checkRpc_rpc _ _ _ _ _ Hrpc).
  assert (He1 : amqpRPCQueues (set_channel c st) !! queue = Some entry) by done.
  assert (Hens : ensure_entry queue (set_channel c st) = set_channel c st).
  { unfold ensure_entry. by rewrite He1. }
  rewrite Hens, (createRpcQueue_cached hostname env queue _ entry He1 Ht), He1.
  cbn [default from_option id].
  destruct (send_event env queue (parsers_out (normalize msg) o)
              (<["replyTo" := prop entry "queue"]>
                 (<["correlationId" := JStr (env_uuid env)]>
                    (<["persistent" := JBool true]> o))))
    as (e & -> & Hs & Ho & _).
  assert (Hd : declarations [e] = 0%nat ∧ is_consume e = false).
  { destruct e; try done. }
  destruct Hd as [Hd Hc].
  destruct (env_send env) as [ack|err]; intros [= <- <- <- <- <-];
    eexists e, _, _; (split; [reflexivity|]); (split; [done|]); (split; [done|]);
    (split; [by rewrite lookup_insert_eq|]);
    (split; [by rewrite lookup_insert_ne, lookup_insert_eq|]);
    (split; [by destruct e|]); (split; [by repeat constructor|]); done.
Qed.

End RpcScenarios.

Section Sends.

Variable hostname : string.
Variable timeout : Z.
Variable parsers_out : JsVal -> JsObject -> Bytes.

(** ** Handles *)

Lemma registrations_app (a b : list Event) :
  registrations (a ++ b) = (registrations a + registrations b)%nat.
Proof. unfold registrations. by rewrite List.filter_app, length_app. Qed.

Lemma declarations_app (a b : list Event) :
  declarations (a ++ b) = (declarations a + declarations b)%nat.
Proof. unfold declarations. by rewrite List.filter_app, length_app. Qed.

Lemma checkRpc_handles (env : AttemptEnv) (queue : string) (body : Bytes)
  (options options' : JsObject) (st st' : State) (r : Result Reply) (tr : list Event) :
  checkRpc hostname env queue body options st = (r, options', st', tr) →
  match r with
  | Ok (Awaiting d) =>
    d = length (deferreds st) ∧ deferreds st' = deferreds st ++ [Pending] ∧
    registrations tr = 1%nat
  | _ => deferreds st' = deferreds st ∧ registrations tr = 0%nat
  end.
Proof.
  unfold checkRpc, createRpcQueue, publishOrSendToQueue, register, ensure_entry.
  cbv zeta. repeat case_match; simplify_eq; intros [= <- <- <- <-]; by cbn.
Qed.

Lemma attempt_handles (env : AttemptEnv) (queue : string) (msg msg' : JsVal)
  (options options' : option JsObject) (st st' : State) (r : Result Reply)
  (tr : list Event) :
  attempt hostname parsers_out env queue msg options st = (r, msg', options', st', tr) →
  match r with
  | Ok (Awaiting d) =>
    d = length (deferreds st) ∧ deferreds st' = deferreds st ++ [Pending] ∧
    registrations tr = 1%nat
  | _ => deferreds st' = deferreds st ∧ registrations tr = 0%nat
  end.
Proof.
  unfold attempt. destruct (env_get env) as [c|e]; [|by intros [= <- <- <- <- <-]].
  destruct (checkRpc _ _ _ _ _ _) as [[[r1 o1] st1] tr1] eqn:Hc.
  apply checkRpc_handles in Hc. intros [= <- <- <- <- <-].
  change (registrations ([EGet; EYield; ELogOut queue (normalize msg)] ++ tr1))
    with (registrations tr1).
  exact Hc.
Qed.

(** X6: however many attempts a call of produce needs, it creates at most
    one handle: none unless it ends waiting for a reply, and then exactly
    one, pending, the last of the handles; a failed attempt leaves no
    handle behind. *)
Theorem produce_leaves_at_most_one_handle (script : list AttemptEnv) (queue : string)
  (msg : JsVal) (options : option JsObject) (st : State) :
  ∃ p st' tr,
    produce hostname timeout parsers_out script queue msg options st = (p, st', tr) ∧
    match p with
    | PAwaiting d =>
      d = length (deferreds st) ∧ deferreds st' = deferreds st ++ [Pending] ∧
      registrations tr = 1%nat
    | _ => deferreds st' = deferreds st ∧ registrations tr = 0%nat
    end.
Proof.
  revert msg options st.
  induction script as [|env rest IH]; intros msg options st.
  - by eexists _, _, _.
  - cbn [produce].
    destruct (attempt _ _ _ _ _ _ _) as [[[[r m'] o'] st1] tr1] eqn:Ha.
    apply attempt_handles in Ha.
    destruct r as [r|e].
    + eexists _, _, _. split; [reflexivity|]. by destruct r.
    + destruct Ha as [Hd Hr].
      destruct (IH m' o' st1) as (p & st' & tr & -> & Hp).
      eexists _, _, _. split; [reflexivity|].
      rewrite !registrations_app, Hr. rewrite Hd in Hp.
      by destruct p.
Qed.

(** ** Plain sends *)

(** X7: a produce whose options do not ask for RPC never touches the
    registry: whatever the number of retries, it adds no entry, no handle
    and no listener, declares no queue, starts no consumer, and never ends
    waiting for a reply. *)
Theorem plain_produce_leaves_registry_alone (script : list AttemptEnv)
  (queue : string) (msg : JsVal) (options : option JsObject) (st : State) :
  truthy (prop (default default_options options) "rpc") = false →
  ∃ p st' tr,
    produce hostname timeout parsers_out script queue msg options st = (p, st', tr) ∧
    amqpRPCQueues st' = amqpRPCQueues st ∧
    deferreds st' = deferreds st ∧
    listeners st' = listeners st ∧
    declarations tr = 0%nat ∧
    Forall (λ e, is_consume e = false) tr ∧
    (∀ d, p ≠ PAwaiting d).
Proof.
  revert msg options st.
  induction script as [|env rest IH]; intros msg options st Hrpc.
  - eexists _, _, _. split; [reflexivity|]. repeat split; by repeat constructor.
  - cbn [produce]. unfold attempt.
    destruct (env_get env) as [c|e].
    + unfold checkRpc. cbv zeta. rewrite prop_insert_ne by done. rewrite Hrpc.
      unfold publishOrSendToQueue.
      destruct (negb _); destruct (env_send env) as [ack|e];
        try (eexists _, _, _; split; [reflexivity|]; repeat split;
             by repeat constructor);
        (destruct (IH (normalize msg)
                    (Some (<["persistent" := JBool true]> (default default_options options)))
                    (set_channel c st)) as (p & st' & tr & -> & H1 & H2 & H3 & H4 & H5 & H6);
         [by cbn; rewrite prop_insert_ne|]);
        eexists _, _, _; (split; [reflexivity|]);
        rewrite !declarations_app, H4; repeat split; try done;
        repeat (apply Forall_cons; split; [done|]); done.
    + destruct (IH msg options st Hrpc) as (p & st' & tr & -> & H1 & H2 & H3 & H4 & H5 & H6).
      eexists _, _, _. split; [reflexivity|].
      rewrite !declarations_app, H4. repeat split; try done.
      repeat (apply Forall_cons; split; [done|]); done.
Qed.

(** ** What a send carries *)

Lemma createRpcQueue_no_send (env : AttemptEnv) (queue : string) (st st' : State)
  (r : Result JsVal) (tr : list Event) :
  createRpcQueue hostname env queue st = (r, st', tr) →
  Forall (λ x, is_send x = false) tr.
Proof.
  unfold createRpcQueue. repeat case_match; intros [= <- <- <-]; repeat constructor.
Qed.

Lemma attempt_send_inv (env : AttemptEnv) (queue : string) (msg msg' : JsVal)
  (options options' : option JsObject) (st st' : State) (r : Result Reply)
  (tr : list Event) (e : Event) :
  attempt hostname parsers_out env queue msg options st = (r, msg', options', st', tr) →
  e ∈ tr → is_send e = true →
  ∃ opts,
    [e] = snd (publishOrSendToQueue env queue
                 (parsers_out (normalize msg) (default default_options options)) opts) ∧
    if truthy (prop (default default_options options) "rpc")
    then ∃ replyTo,
      opts = <["replyTo" := replyTo]>
               (<["correlationId" := JStr (env_uuid env)]>
                  (<["persistent" := JBool true]> (default default_options options)))
    else opts = <["persistent" := JBool true]> (default default_options options).
Proof.
  unfold attempt. destruct (env_get env) as [c|err].
  2:{ intros [= <- <- <- <- <-] Hin Hs. find_send Hin. }
  set (base := default default_options options).
  destruct (truthy (prop base "rpc")) eqn:Hrpc.
  - unfold checkRpc. cbv zeta. rewrite prop_insert_ne by done. rewrite Hrpc.
    destruct (createRpcQueue _ _ _ _) as [[r1 st2] tr1] eqn:Hq.
    apply createRpcQueue_no_send in Hq. rewrite Forall_forall in Hq.
    destruct r1 as [v|err].
    + destruct (send_event env queue (parsers_out (normalize msg) base)
                  (<["replyTo" := prop (default ∅ (amqpRPCQueues st2 !! queue)) "queue"]>
                     (<["correlationId" := JStr (env_uuid env)]>
                        (<["persistent" := JBool true]> base))))
        as (e0 & Hse & _). rewrite Hse. unfold register.
      destruct (env_send env) as [ack|err]; intros [= <- <- <- <- <-] Hin Hs;
        repeat (apply elem_of_cons in Hin as [->|Hin]; [discriminate|]);
        repeat (apply elem_of_app in Hin as [Hin|Hin]);
        try (apply Hq in Hin; congruence);
        find_send Hin; eexists; (split; [by rewrite Hse | by eexists]).
    + intros [= <- <- <- <- <-] Hin Hs.
      repeat (apply elem_of_cons in Hin as [->|Hin]; [discriminate|]).
      apply Hq in Hin. congruence.
  - unfold checkRpc. cbv zeta. rewrite prop_insert_ne by done. rewrite Hrpc.
    destruct (send_event env queue (parsers_out (normalize msg) base)
                (<["persistent" := JBool true]> base)) as (e0 & Hse & _).
    rewrite Hse.
    destruct (env_send env) as [ack|err]; intros [= <- <- <- <- <-] Hin Hs;
      find_send Hin; eexists; (split; [by rewrite Hse | done]).
Qed.

(** X8: between the options object it is called with and the object it
    hands to the channel, checkRpc writes only persistent, set to true,
    and, in RPC mode, correlationId, set to the fresh id, and replyTo;
    every other property of that object, routingKey and durable included,
    reaches the channel as checkRpc received it, and the object the caller
    holds afterwards is the stamped one that was sent. *)
Theorem checkRpc_writes_only_its_stamps (env : AttemptEnv) (queue : string)
  (body : Bytes) (options options' : JsObject) (st st' : State)
  (r : Result Reply) (tr : list Event) (e : Event) (opts : JsObject) :
  checkRpc hostname env queue body options st = (r, options', st', tr) →
  e ∈ tr → send_options e = Some opts →
  options' = opts ∧
  opts !! "persistent" = Some (JBool true) ∧
  (∀ k, k ≠ "persistent"%string → k ≠ "correlationId"%string → k ≠ "replyTo"%string →
        opts !! k = options !! k) ∧
  (truthy (prop options "rpc") = false →
     opts = <["persistent" := JBool true]> options) ∧
  (truthy (prop options "rpc") = true →
     ∃ replyTo,
       opts = <["replyTo" := replyTo]>
                (<["correlationId" := JStr (env_uuid env)]>
                   (<["persistent" := JBool true]> options))).
Proof.
  destruct (truthy (prop options "rpc")) eqn:Hrpc.
  - rewrite (checkRpc_rpc hostname env queue body options st Hrpc).
    destruct (createRpcQueue _ _ _ _) as [[r1 st2] tr1] eqn:Hq.
    apply createRpcQueue_no_send in Hq. rewrite Forall_forall in Hq.
    destruct r1 as [v|err].
    + cbv zeta.
      destruct (send_event env queue body
                  (<["replyTo" := prop (default ∅ (amqpRPCQueues st2 !! queue)) "queue"]>
                     (<["correlationId" := JStr (env_uuid env)]>
                        (<["persistent" := JBool true]> options))))
        as (e0 & Hse & Hs0 & Ho0 & _). rewrite Hse.
      destruct (env_send env) as [ack|err]; intros [= <- <- <- <-] Hin Ho;
        repeat (apply elem_of_app in Hin as [Hin|Hin]);
        try (apply Hq in Hin; destruct e; cbn in Hin, Ho; congruence);
        repeat (apply elem_of_cons in Hin as [->|Hin]);
        try (by apply elem_of_nil in Hin); try (cbn in Ho; congruence);
        rewrite Ho0 in Ho; injection Ho as <-;
        (split; [done|]);
        (split; [do 2 (rewrite lookup_insert_ne by done); by rewrite lookup_insert_eq|]);
        (split; [intros k H1 H2 H3; by rewrite !lookup_insert_ne by done|]);
        (split; [done | intros _; by eexists]).
    + intros [= <- <- <- <-] Hin Ho. apply Hq in Hin. destruct e; cbn in Hin, Ho; congruence.
  - rewrite (checkRpc_plain hostname env queue body options st Hrpc).
    destruct (send_event env queue body (<["persistent" := JBool true]> options))
      as (e0 & Hse & Hs0 & Ho0 & _). rewrite Hse.
    destruct (env_send env) as [ack|err]; intros [= <- <- <- <-] Hin Ho;
      repeat (apply elem_of_cons in Hin as [->|Hin]);
      try (by apply elem_of_nil in Hin);
      rewrite Ho0 in Ho; injection Ho as <-;
      (split; [done|]); (split; [by rewrite lookup_insert_eq|]);
      (split; [intros k H1 H2 H3; by rewrite lookup_insert_ne by done|]);
      by split.
Qed.

(** X9: a send goes to the destination as a queue when the options carry
    no truthy routingKey, and otherwise to the destination as an exchange
    with that routing key; the body is the payload, normalised, encoded
    with the options as they were before checkRpc stamped them. *)
Theorem send_is_routed_by_routing_key (env : AttemptEnv) (queue : string)
  (msg msg' : JsVal) (options options' : option JsObject) (st st' : State)
  (r : Result Reply) (tr : list Event) (e : Event) :
  attempt hostname parsers_out env queue msg options st = (r, msg', options', st', tr) →
  e ∈ tr → is_send e = true →
  ∃ opts,
    e = (if truthy (prop (default default_options options) "routingKey")
         then EPublish queue (prop (default default_options options) "routingKey")
                (parsers_out (normalize msg) (default default_options options)) opts
         else ESendToQueue queue
                (parsers_out (normalize msg) (default default_options options)) opts).
Proof.
  intros Ha Hin Hs.
  destruct (attempt_send_inv _ _ _ _ _ _ _ _ _ _ _ Ha Hin Hs) as (o1 & He & Hopts).
  destruct (send_event env queue
              (parsers_out (normalize msg) (default default_options options)) o1)
    as (e0 & Hse & _ & _ & _ & Hform).
  rewrite Hse in He. cbn in He. injection He as ->.
  assert (Hrk : prop o1 "routingKey" = prop (default default_options options) "routingKey").
  { destruct (truthy (prop (default default_options options) "rpc")).
    - destruct Hopts as [rt ->]. by rewrite !prop_insert_ne.
    - subst o1. by rewrite prop_insert_ne. }
  rewrite Hrk in Hform. by exists o1.
Qed.

End Sends.

Section Replies.

Variable hostname : string.
Variable parsers_in : Message -> JsVal.

(** ** Replies and close events *)

(** X10: the close event rejects no waiter and drops no handle: it leaves
    every handle as it is, and a reply delivered after it whose correlation
    id has a pending handle still fulfils that handle with the decoded
    payload. *)
Theorem close_keeps_pending_handles (st : State) (queue : string) (entry : JsObject)
  (m : Message) (d : nat) :
  wf st →
  amqpRPCQueues st !! queue = Some entry →
  prop_key (correlationId (properties m)) ≠ "queue"%string →
  entry !! prop_key (correlationId (properties m)) = Some (JDeferred d) →
  deferreds st !! d = Some Pending →
  ∃ st1 st2,
    emit_close st = (Ok tt, st1) ∧
    deferreds st1 = deferreds st ∧
    maybeAnswer parsers_in queue m st1 =
      (Ok tt, st2,
       [EResolve d (parsers_in m); ELogIn queue (parsers_in m);
        EUnregister queue (prop_key (correlationId (properties m)))]) ∧
    deferreds st2 !! d = Some (Fulfilled (parsers_in m)).
Proof.
  intros [Hle _] He Hk Hc Hd. unfold emit_close.
  destruct (emit_to_spec (listeners st) st Hle) as (st1 & Hrun & _ & Hds & Hreg).
  assert (He1 : ∃ entry1, amqpRPCQueues st1 !! queue = Some entry1 ∧
                  entry1 !! prop_key (correlationId (properties m)) = Some (JDeferred d)).
  { rewrite Hreg, He. case_decide; cbn; eexists; (split; [reflexivity|]); [|done].
    by rewrite lookup_insert_ne. }
  destruct He1 as (entry1 & He1 & Hc1).
  eexists st1, _. split; [done|]. split; [done|].
  split; [by apply maybeAnswer_deferred|].
  cbn. apply resolve_pending. by rewrite Hds.
Qed.

Lemma resolve_commute (d1 d2 : nat) (v1 v2 : JsVal) (ds : list DState) :
  d1 ≠ d2 → resolve d2 v2 (resolve d1 v1 ds) = resolve d1 v1 (resolve d2 v2 ds).
Proof.
  intros Hne. unfold resolve.
  destruct (ds !! d1) as [[|w1]|] eqn:H1; destruct (ds !! d2) as [[|w2]|] eqn:H2;
    rewrite ?list_lookup_insert_ne by done; rewrite ?H1, ?H2; try done.
  by apply list_insert_insert_ne.
Qed.

(** X11: replies are matched by correlation id only, not by order: two
    replies for two different pending calls of a destination leave the same
    state whichever is delivered first, and each call gets the payload of
    its own reply. *)
Theorem replies_commute (queue : string) (m1 m2 : Message) (st : State)
  (entry : JsObject) (d1 d2 : nat) :
  amqpRPCQueues st !! queue = Some entry →
  prop_key (correlationId (properties m1)) ≠ prop_key (correlationId (properties m2)) →
  entry !! prop_key (correlationId (properties m1)) = Some (JDeferred d1) →
  entry !! prop_key (correlationId (properties m2)) = Some (JDeferred d2) →
  d1 ≠ d2 →
  deferreds st !! d1 = Some Pending →
  deferreds st !! d2 = Some Pending →
  ∃ st12,
    snd (fst (maybeAnswer parsers_in queue m2
                (snd (fst (maybeAnswer parsers_in queue m1 st))))) = st12 ∧
    snd (fst (maybeAnswer parsers_in queue m1
                (snd (fst (maybeAnswer parsers_in queue m2 st))))) = st12 ∧
    deferreds st12 !! d1 = Some (Fulfilled (parsers_in m1)) ∧
    deferreds st12 !! d2 = Some (Fulfilled (parsers_in m2)).
Proof.
  intros He Hk H1 H2 Hd Hp1 Hp2.
  rewrite (maybeAnswer_deferred parsers_in queue m1 st entry d1 He H1).
  rewrite (maybeAnswer_deferred parsers_in queue m2 st entry d2 He H2).
  cbn [fst snd].
  erewrite (maybeAnswer_deferred parsers_in queue m2 _ _ d2);
    [|by cbn; rewrite lookup_insert_eq | by rewrite lookup_delete_ne].
  erewrite (maybeAnswer_deferred parsers_in queue m1 _ _ d1);
    [|by cbn; rewrite lookup_insert_eq | by rewrite lookup_delete_ne].
  cbn [fst snd]. eexists. split; [reflexivity|]. split.
  - unfold set_registry, set_deferreds. cbn.
    rewrite !insert_insert_eq. f_equal.
    + f_equal. apply delete_delete.
    + by apply resolve_commute.
  - cbn. split.
    + rewrite resolve_other by done. by apply resolve_pending.
    + apply resolve_pending. by rewrite resolve_other.
Qed.

(** X12: a delivered message changes at most one thing: the handle stored
    under its own correlation id.  It never touches the listeners, the
    channel, the entries of other destinations, any other property of the
    entry, or the number of handles; and when the dispatcher throws it has
    changed nothing at all. *)
Theorem reply_touches_one_key (queue : string) (m : Message) (st : State) :
  ∃ r st' tr,
    maybeAnswer parsers_in queue m st = (r, st', tr) ∧
    listeners st' = listeners st ∧
    channel st' = channel st ∧
    length (deferreds st') = length (deferreds st) ∧
    (∀ q, q ≠ queue → amqpRPCQueues st' !! q = amqpRPCQueues st !! q) ∧
    (∀ k, k ≠ prop_key (correlationId (properties m)) →
          (amqpRPCQueues st' !! queue) ≫= (.!! k) =
          (amqpRPCQueues st !! queue) ≫= (.!! k)) ∧
    (∀ e, r = Err e → st' = st ∧ tr = []).
Proof.
  unfold maybeAnswer.
  destruct (amqpRPCQueues st !! queue) as [entry|] eqn:He.
  2:{ eexists _, _, _. split; [reflexivity|].
      repeat split; try done; intros; by rewrite He. }
  destruct (entry !! _) as [v|] eqn:Hv.
  2:{ eexists _, _, _. split; [reflexivity|].
      repeat split; try done; intros; by rewrite He. }
  destruct v;
    try (eexists _, _, _; split; [reflexivity|];
         repeat split; try done; intros; by rewrite He).
  eexists _, _, _. split; [reflexivity|]. cbn. repeat split; try done.
  - apply resolve_length.
  - intros q Hq. by rewrite lookup_insert_ne.
  - intros k Hk. rewrite lookup_insert_eq. cbn. by rewrite lookup_delete_ne.
Qed.




End Replies.

(** * The further properties on the concrete producer *)

Lemma consume_failure_leaves_no_consumer_witness :
  truthy (prop Sample.rpc_options "rpc") = true ∧
  env_consume SampleMore.env_consume_fails = Err (Rejection "channel closed") ∧
  ∃ st' e opts tr,
    produce Sample.hostname Sample.timeout Sample.parsers_out
      [SampleMore.env_consume_fails; Sample.env_ok] "service-oauth" (JStr "ping")
      (Some Sample.rpc_options) initial = (PAwaiting 0, st', tr) ∧
    e ∈ tr ∧ is_send e = true ∧ send_options e = Some opts ∧
    opts !! "replyTo" = Some (JStr "service-oauth:gateway-http:res") ∧
    length (List.filter is_consume tr) = 1%nat.
Proof.
  assert (Hrpc : truthy (prop Sample.rpc_options "rpc") = true) by by_computation.
  assert (Hnc : truthy (prop (default ∅ (amqpRPCQueues initial !! "service-oauth")) "queue")
                = false) by by_computation.
  split; [exact Hrpc|]. split; [reflexivity|].
  destruct (consume_failure_leaves_no_consumer Sample.hostname Sample.timeout
              Sample.parsers_out SampleMore.env_consume_fails Sample.env_ok
              "service-oauth" (JStr "ping") Sample.rpc_options initial 1 1
              "service-oauth:gateway-http:res" (Rejection "channel closed") true
              Hrpc Hnc eq_refl eq_refl ltac:(discriminate) eq_refl eq_refl eq_refl)
    as (st' & e & opts & Hp & Hs & Ho & Hr).
  eexists st', e, opts, _. split; [exact Hp|].
  split; [by do 16 right; left|]. split; [exact Hs|]. split; [exact Ho|].
  split; [exact Hr|]. by destruct e.
Defined.

Lemma rejected_declaration_is_repeated_witness :
  env_assertQueue SampleMore.env_declare_fails = Err (Rejection "resource locked") ∧
  ∃ st' tr,
    produce Sample.hostname Sample.timeout Sample.parsers_out
      [SampleMore.env_declare_fails; Sample.env_ok] "service-oauth" (JStr "ping")
      (Some Sample.rpc_options) initial = (PAwaiting 0, st', tr) ∧
    declarations tr = 2%nat ∧
    listeners st' = ["service-oauth"%string].
Proof.
  assert (Hrpc : truthy (prop Sample.rpc_options "rpc") = true) by by_computation.
  assert (Hnc : truthy (prop (default ∅ (amqpRPCQueues initial !! "service-oauth")) "queue")
                = false) by by_computation.
  split; [reflexivity|].
  destruct (rejected_declaration_is_repeated Sample.hostname Sample.timeout
              Sample.parsers_out SampleMore.env_declare_fails Sample.env_ok
              "service-oauth" (JStr "ping") Sample.rpc_options initial 1 1
              "service-oauth:gateway-http:res" (Rejection "resource locked") tt true
              Hrpc Hnc eq_refl eq_refl eq_refl eq_refl eq_refl eq_refl)
    as (st' & e & opts & Hp & Hs & Ho & Hr & Hl).
  eexists st', _. split; [exact Hp|]. split; [by destruct e | exact Hl].
Defined.

Lemma cached_rpc_goes_straight_to_send_witness :
  amqpRPCQueues Sample.after_rpc !! "service-oauth" = Some SampleRuns.pending_entry ∧
  truthy (prop SampleRuns.pending_entry "queue") = true ∧
  ∃ e opts rest,
    snd SampleMore.second_rpc_attempt =
      [EGet; EYield; ELogOut "service-oauth" (JStr "ping"); EYield; e] ++ rest ∧
    send_options e = Some opts ∧
    opts !! "replyTo" = Some (prop SampleRuns.pending_entry "queue") ∧
    declarations (snd SampleMore.second_rpc_attempt) = 0%nat ∧
    listeners SampleMore.after_two_rpc = listeners Sample.after_rpc.
Proof.
  assert (Hrpc : truthy (prop Sample.rpc_options "rpc") = true) by by_computation.
  assert (He : amqpRPCQueues Sample.after_rpc !! "service-oauth"
               = Some SampleRuns.pending_entry) by by_computation.
  assert (Ht : truthy (prop SampleRuns.pending_entry "queue") = true) by by_computation.
  split; [exact He|]. split; [exact Ht|].
  assert (Ha : SampleMore.second_rpc_attempt =
               (fst (fst (fst (fst SampleMore.second_rpc_attempt))),
                snd (fst (fst (fst SampleMore.second_rpc_attempt))),
                snd (fst (fst SampleMore.second_rpc_attempt)),
                snd (fst SampleMore.second_rpc_attempt), snd SampleMore.second_rpc_attempt))
    by (by destruct SampleMore.second_rpc_attempt as [[[[? ?] ?] ?] ?]).
  destruct (cached_rpc_goes_straight_to_send Sample.hostname Sample.parsers_out
              SampleMore.env_ok2 "service-oauth" (JStr "ping") _ Sample.rpc_options _
              Sample.after_rpc _ SampleRuns.pending_entry 1 _ _
              Hrpc He Ht eq_refl Ha)
    as (e & opts & rest & Htr & Hs & Ho & Hr & _ & Hd & _ & Hl).
  exists e, opts, rest. split; [exact Htr|]. split; [exact Ho|]. split; [exact Hr|].
  split; [exact Hd | exact Hl].
Defined.

Lemma plain_produce_leaves_registry_alone_witness :
  truthy (prop (default default_options None) "rpc") = false ∧
  ∃ p st' tr,
    produce Sample.hostname Sample.timeout Sample.parsers_out
      [Sample.env_down; Sample.env_ok] "queueName" (JStr "hello world!") None
      Sample.after_rpc = (p, st', tr) ∧
    amqpRPCQueues st' = amqpRPCQueues Sample.after_rpc ∧
    deferreds st' = deferreds Sample.after_rpc ∧
    listeners st' = listeners Sample.after_rpc.
Proof.
  assert (Hrpc : truthy (prop (default default_options None) "rpc") = false)
    by by_computation.
  split; [exact Hrpc|].
  destruct (plain_produce_leaves_registry_alone Sample.hostname Sample.timeout
              Sample.parsers_out [Sample.env_down; Sample.env_ok] "queueName"
              (JStr "hello world!") None Sample.after_rpc Hrpc)
    as (p & st' & tr & Hp & H1 & H2 & H3 & _).
  exists p, st', tr. split; [exact Hp|]. split; [exact H1|]. split; [exact H2 | exact H3].
Defined.

Lemma routed_attempt_eta :
  SampleMore.routed_attempt =
    (fst (fst (fst (fst SampleMore.routed_attempt))),
     snd (fst (fst (fst SampleMore.routed_attempt))),
     snd (fst (fst SampleMore.routed_attempt)),
     snd (fst SampleMore.routed_attempt), snd SampleMore.routed_attempt).
Proof. by destruct SampleMore.routed_attempt as [[[[? ?] ?] ?] ?]. Qed.

Lemma routed_send_in_trace : SampleMore.routed_send ∈ snd SampleMore.routed_attempt.
Proof.
  apply list_elem_of_lookup. exists 3%nat. by_computation.
Qed.

Lemma checkRpc_writes_only_its_stamps_witness :
  ∃ opts,
    send_options SampleMore.routed_check_send = Some opts ∧
    snd (fst (fst SampleMore.routed_check)) = opts ∧
    opts !! "persistent" = Some (JBool true) ∧
    opts !! "durable" = SampleMore.routed_options !! "durable" ∧
    opts !! "routingKey" = SampleMore.routed_options !! "routingKey" ∧
    opts = <["persistent" := JBool true]> SampleMore.routed_options.
Proof.
  assert (Ho : send_options SampleMore.routed_check_send
               = Some (default ∅ (send_options SampleMore.routed_check_send)))
    by by_computation.
  assert (Hin : SampleMore.routed_check_send ∈ snd SampleMore.routed_check).
  { apply list_elem_of_lookup. exists 0%nat. by_computation. }
  assert (Hc : SampleMore.routed_check =
               (fst (fst (fst SampleMore.routed_check)),
                snd (fst (fst SampleMore.routed_check)),
                snd (fst SampleMore.routed_check), snd SampleMore.routed_check))
    by (by destruct SampleMore.routed_check as [[[? ?] ?] ?]).
  destruct (checkRpc_writes_only_its_stamps Sample.hostname Sample.env_ok "events"
              _ SampleMore.routed_options _ initial _ _ _ _ _ Hc Hin Ho)
    as (Hsame & Hp & Hk & Hplain & _).
  eexists. split; [exact Ho|]. split; [exact Hsame|]. split; [exact Hp|].
  split; [by apply Hk|]. split; [by apply Hk|].
  apply Hplain. by_computation.
Defined.

Lemma send_is_routed_by_routing_key_witness :
  is_send SampleMore.routed_send = true ∧
  ∃ opts,
    SampleMore.routed_send =
      EPublish "events" (JStr "user.created")
        (Sample.parsers_out (JStr "hello world!") SampleMore.routed_options) opts.
Proof.
  assert (Hs : is_send SampleMore.routed_send = true) by by_computation.
  split; [exact Hs|].
  destruct (send_is_routed_by_routing_key Sample.hostname Sample.parsers_out Sample.env_ok
              "events" (JStr "hello world!") _ (Some SampleMore.routed_options) _
              initial _ _ _ _ routed_attempt_eta routed_send_in_trace Hs)
    as (opts & He).
  exists opts. exact He.
Defined.

Lemma close_keeps_pending_handles_witness :
  wf Sample.after_rpc ∧
  deferreds Sample.after_rpc !! 0%nat = Some Pending ∧
  ∃ st1 st2,
    emit_close Sample.after_rpc = (Ok tt, st1) ∧
    fst (fst (maybeAnswer Sample.parsers_in "service-oauth" SampleRuns.pong st1)) = Ok tt ∧
    snd (fst (maybeAnswer Sample.parsers_in "service-oauth" SampleRuns.pong st1)) = st2 ∧
    deferreds st2 !! 0%nat = Some (Fulfilled (JStr "pong")).
Proof.
  assert (He : amqpRPCQueues Sample.after_rpc !! "service-oauth"
               = Some SampleRuns.pending_entry) by by_computation.
  assert (Hc : SampleRuns.pending_entry
                 !! prop_key (correlationId (properties SampleRuns.pong))
               = Some (JDeferred 0)) by by_computation.
  assert (Hd : deferreds Sample.after_rpc !! 0%nat = Some Pending) by by_computation.
  split; [exact wf_after_rpc|]. split; [exact Hd|].
  destruct (close_keeps_pending_handles Sample.parsers_in Sample.after_rpc
              "service-oauth" SampleRuns.pending_entry SampleRuns.pong 0
              wf_after_rpc He ltac:(discriminate) Hc Hd)
    as (st1 & st2 & Hcl & _ & Hm & Hf).
  exists st1, st2. split; [exact Hcl|]. rewrite Hm. by repeat split.
Defined.

Lemma replies_commute_witness :
  SampleRuns.uuid ≠ SampleMore.uuid2 ∧
  SampleMore.two_pending !! SampleRuns.uuid = Some (JDeferred 0) ∧
  SampleMore.two_pending !! SampleMore.uuid2 = Some (JDeferred 1) ∧
  ∃ st12,
    snd (fst (maybeAnswer Sample.parsers_in "service-oauth" SampleMore.pang
                (snd (fst (maybeAnswer Sample.parsers_in "service-oauth" SampleRuns.pong
                             SampleMore.after_two_rpc))))) = st12 ∧
    snd (fst (maybeAnswer Sample.parsers_in "service-oauth" SampleRuns.pong
                (snd (fst (maybeAnswer Sample.parsers_in "service-oauth" SampleMore.pang
                             SampleMore.after_two_rpc))))) = st12 ∧
    deferreds st12 !! 0%nat = Some (Fulfilled (JStr "pong")) ∧
    deferreds st12 !! 1%nat = Some (Fulfilled (JStr "pang")).
Proof.
  assert (He : amqpRPCQueues SampleMore.after_two_rpc !! "service-oauth"
               = Some SampleMore.two_pending) by by_computation.
  assert (H1 : SampleMore.two_pending
                 !! prop_key (correlationId (properties SampleRuns.pong))
               = Some (JDeferred 0)) by by_computation.
  assert (H2 : SampleMore.two_pending
                 !! prop_key (correlationId (properties SampleMore.pang))
               = Some (JDeferred 1)) by by_computation.
  assert (Hp1 : deferreds SampleMore.after_two_rpc !! 0%nat = Some Pending)
    by by_computation.
  assert (Hp2 : deferreds SampleMore.after_two_rpc !! 1%nat = Some Pending)
    by by_computation.
  split; [discriminate|]. split; [exact H1|]. split; [exact H2|].
  apply (replies_commute Sample.parsers_in "service-oauth" SampleRuns.pong SampleMore.pang
           SampleMore.after_two_rpc SampleMore.two_pending 0 1
           He ltac:(discriminate) H1 H2 ltac:(discriminate) Hp1 Hp2).
Defined.

